(** * Pose-driven visual effects: a shallow embedding of
      [mmpose/core/visualization/effects.py]

    The four entry points of the module ([apply_bugeye_effect],
    [apply_sunglasses_effect], [apply_hat_effect], [apply_firecracker_effect])
    are embedded as functions over explicit data:

    - floating-point numbers are idealised as exact rationals ([Q]);
    - [np.ndarray] images are row-major lists of rows of pixels;
    - Python exceptions and non-finite numpy values are results of type
      [outcome];
    - the OpenCV calls whose bodies are not part of the module
      ([cv2.remap], [cv2.findHomography], [cv2.warpPerspective],
      [cv2.cvtColor]) are fields of an interface record [cv.CV2]; every
      general theorem holds for any implementation of it, and a reference
      implementation in exact arithmetic is used to run concrete calls.
      Errors raised inside OpenCV are outside the model. *)

From Stdlib Require Import ZArith QArith Qfield Qround Lqa Lia.
From stdpp Require Import base option list gmap.

Local Open Scope Q_scope.

(** ** Results of fallible code *)

(** [IndexError] and [ZeroDivisionError] are the Python exceptions the module
    can raise on its own; [NonFinite] marks an element-wise numpy division by
    zero, whose [inf]/[nan] result lies outside exact arithmetic. *)
Inductive fault : Type := IndexError | ZeroDivisionError | NonFinite.

Inductive outcome (A : Type) : Type :=
| Ok (a : A)
| Fault (f : fault).
Arguments Ok {A} a.
Arguments Fault {A} f.

#[global] Instance outcome_ret : MRet outcome := @Ok.
#[global] Instance outcome_bind : MBind outcome :=
  λ A B f m, match m with Ok a => f a | Fault e => Fault e end.

(** A Python [for] loop threading its state; an exception ends it. *)
Fixpoint for_each {S X : Type} (body : S → X → outcome S)
    (xs : list X) (s : S) : outcome S :=
  match xs with
  | [] => Ok s
  | x :: xs' => s' ← body s x; for_each body xs' s'
  end.

(** ** Numbers *)

Definition Qltb (a b : Q) : bool := negb (Qle_bool b a).

(** [a / b] on Python scalars. *)
Definition py_div (a b : Q) : outcome Q :=
  if Qeq_bool b 0 then Fault ZeroDivisionError else Ok (a / b).

(** [a / b] on one element of a numpy array. *)
Definition np_div (a b : Q) : outcome Q :=
  if Qeq_bool b 0 then Fault NonFinite else Ok (a / b).

Definition Qnat (n : nat) : Q := inject_Z (Z.of_nat n).

(** ** Arrays, pixels, detections *)

Abbreviation array2 A := (list (list A)).
Definition vec2 : Type := (Q * Q)%type.

Record bgr : Type := BGR { chB : Z; chG : Z; chR : Z }.
Record bgra : Type := BGRA { color : bgr; alpha : Z }.
Abbreviation image := (list (list bgr)).

(** One row of the [K x 3] keypoint array: [x, y, score]. *)
Record keypoint : Type := Keypoint { kx : Q; ky : Q; score : Q }.

(** One entry of [pose_results]. *)
Record pose : Type := Pose { bbox : list Q; keypoints : list keypoint }.

Module np.

(** [a[i]] for a Python int [i]: negative indices count from the end. *)
Definition index {A : Type} (a : list A) (i : Z) : outcome A :=
  let n := Z.of_nat (length a) in
  let k := if (i <? 0)%Z then (i + n)%Z else i in
  if ((0 <=? k) && (k <? n))%Z
  then match a !! Z.to_nat k with
       | Some x => Ok x
       | None => Fault IndexError
       end
  else Fault IndexError.

(** [a.shape[:2]] as (rows, columns). *)
Definition shape {A : Type} (a : array2 A) : nat * nat :=
  (length a, length (default [] (head a))).

Definition arange (n : nat) : list Q := Qnat <$> seq 0 n.

(** [np.meshgrid(xs, ys)]: both results have [len(ys)] rows and
    [len(xs)] columns. *)
Definition meshgrid (xs ys : list Q) : array2 Q * array2 Q :=
  (replicate (length ys) xs, (λ y, replicate (length xs) y) <$> ys).

(** [kpts[i, :2]] *)
Definition xy (k : keypoint) : vec2 := (kx k, ky k).

Definition add (u v : vec2) : vec2 := (u.1 + v.1, u.2 + v.2).
Definition sub (u v : vec2) : vec2 := (u.1 - v.1, u.2 - v.2).
Definition mul (u v : vec2) : vec2 := (u.1 * v.1, u.2 * v.2).
Definition smul (c : Q) (v : vec2) : vec2 := (c * v.1, c * v.2).
(** [v[::-1]] *)
Definition rev (v : vec2) : vec2 := (v.2, v.1).

(** Element-wise application over two arrays of one shape. *)
Definition map2 {A B C : Type} (f : A → B → C)
    (a : array2 A) (b : array2 B) : array2 C :=
  zip_with (zip_with f) a b.

(** An element-wise expression that may leave exact arithmetic at some
    element. *)
Fixpoint traverse {A B : Type} (f : A → outcome B) (l : list A)
    : outcome (list B) :=
  match l with
  | [] => Ok []
  | x :: l' => y ← f x; ys ← traverse f l'; Ok (y :: ys)
  end.

Definition broadcast2 {C : Type} (f : Q → Q → outcome C)
    (a b : array2 Q) : outcome (array2 C) :=
  traverse (traverse (λ p : Q * Q, f p.1 p.2)) (map2 pair a b).

(** [(a < c)], [(a > c)], [m1 * m2] on boolean masks, [.astype(np.uint8)]. *)
Definition lt_scalar (a : array2 Z) (c : Z) : array2 bool :=
  fmap (M := list) (fmap (M := list) (λ v, (v <? c)%Z)) a.
Definition gt_scalar (a : array2 Z) (c : Z) : array2 bool :=
  fmap (M := list) (fmap (M := list) (λ v, (c <? v)%Z)) a.
Definition mask_mul (a b : array2 bool) : array2 bool := map2 andb a b.
Definition astype_uint8 (a : array2 bool) : array2 Z :=
  fmap (M := list) (fmap (M := list) (λ b : bool, if b then 1%Z else 0%Z)) a.

End np.

(** ** The OpenCV calls *)

Module cv.

Definition white : bgr := BGR 255 255 255.
Definition black : bgr := BGR 0 0 0.

Definition same_size {A B : Type} (a : array2 A) (b : array2 B) : bool :=
  bool_decide (length <$> a = length <$> b).

(** [src] wherever the mask is non-zero, [dst] elsewhere. *)
Definition masked_copy {P : Type} (src : array2 P) (mask : array2 Z)
    (dst : array2 P) : array2 P :=
  np.map2 (λ (sm : P * Z) (d : P), if (sm.2 =? 0)%Z then d else sm.1)
          (np.map2 pair src mask) dst.

(** [cv2.copyTo(src, mask, dst)]: [dst] keeps its buffer when it already has
    the size of [src]; otherwise it is reallocated and zero-filled before
    the masked copy. *)
Definition copyTo (src : image) (mask : array2 Z) (dst : image) : image :=
  if same_size src dst then masked_copy src mask dst
  else masked_copy src mask
         (fmap (M := list) (fmap (M := list) (λ _, black)) src).

(** The calls whose bodies live in OpenCV. [remap] stands for
    [cv2.remap(img, xx, yy, interpolation=cv2.INTER_AREA,
    borderMode=cv2.BORDER_REPLICATE)]; [warpPerspective] takes [dsize] as
    (width, height) and the border pixel. *)
Record CV2 : Type := {
  hmat : Type;
  remap : image → array2 Q → array2 Q → image;
  findHomography : list vec2 → list vec2 → hmat;
  warpPerspective : ∀ P : Type, array2 P → hmat → nat * nat → P → array2 P;
  cvtColor_BGR2GRAY : image → array2 Z
}.
Arguments warpPerspective c {P} _ _ _ _.

End cv.

(** ** The keypoint gate of the three eye-anchored effects

    [if kpts[left_eye_index, 2] < kpt_thr or kpts[right_eye_index, 2] <
    kpt_thr: continue]: the right eye is only looked up when the left eye
    passes. [None] stands for [continue]. *)
Definition eye_gate (kpts : list keypoint) (left_eye_index right_eye_index : Z)
    (kpt_thr : Q) : outcome (option (keypoint * keypoint)) :=
  kl ← np.index kpts left_eye_index;
  if Qltb (score kl) kpt_thr then Ok None else
  kr ← np.index kpts right_eye_index;
  if Qltb (score kr) kpt_thr then Ok None else
  Ok (Some (kl, kr)).

(** ** apply_bugeye_effect *)

(** distortion parameters *)
Definition k1 : Q := 1 # 1000.
Definition epe : Q := 1 # 100000.

(** Lines 45-49 at one grid element [(x, y)], for an anchor [(xc, yc)];
    the coefficient and the regulariser are arguments so that the kernel can
    be studied away from the two constants. *)
Definition distort_at (k1 epe scale xc yc x y : Q) : outcome (Q * Q) :=
  let r2 := (x - xc) ^ 2 + (y - yc) ^ 2 in
  r2 ← np_div (r2 + epe) scale;
  q ← np_div k1 r2;
  x' ← np_div (x - xc) (1 + q);
  q' ← np_div k1 r2;
  y' ← np_div (y - yc) (1 + q');
  Ok (x' + xc, y' + yc).

(** One turn of [for xc, yc in [kpt_leye, kpt_reye]] over the whole grid. *)
Definition distort (k1 epe : Q) (bbox : list Q)
    (g : array2 Q * array2 Q) (c : vec2) : outcome (array2 Q * array2 Q) :=
  b2 ← np.index bbox 2; b0 ← np.index bbox 0;
  b3 ← np.index bbox 3; b1 ← np.index bbox 1;
  let scale := (b2 - b0) ^ 2 + (b3 - b1) ^ 2 in
  g' ← np.broadcast2 (distort_at k1 epe scale c.1 c.2) g.1 g.2;
  Ok (fmap (M := list) (fmap (M := list) fst) g',
      fmap (M := list) (fmap (M := list) snd) g').

(** The state of the outer loop: the grids [(xx, yy)] and [img]. *)
Definition bugeye_state : Type := ((array2 Q * array2 Q) * image)%type.

Definition bugeye_body (c : cv.CV2) (left_eye_index right_eye_index : Z)
    (kpt_thr : Q) (st : bugeye_state) (p : pose) : outcome bugeye_state :=
  let bbox := bbox p in
  let kpts := keypoints p in
  e ← eye_gate kpts left_eye_index right_eye_index kpt_thr;
  match e with
  | None => Ok st
  | Some (kl, kr) =>
      let kpt_leye := np.xy kl in
      let kpt_reye := np.xy kr in
      g ← for_each (distort k1 epe bbox) [kpt_leye; kpt_reye] st.1;
      Ok (g, cv.remap c st.2 g.1 g.2)
  end.

Definition apply_bugeye_effect (c : cv.CV2) (img : image)
    (pose_results : list pose) (left_eye_index right_eye_index : Z)
    (kpt_thr : Q) : outcome image :=
  let g := np.meshgrid (np.arange (np.shape img).2)
                       (np.arange (np.shape img).1) in
  st ← for_each (bugeye_body c left_eye_index right_eye_index kpt_thr)
                pose_results (g, img);
  Ok st.2.

(** ** The homography overlays

    Each asset effect computes, per detection, either nothing ([continue])
    or a warped patch and its mask, and then runs
    [img = cv2.copyTo(patch, mask, img)]. The patch and mask depend on [img]
    through [img.shape] only, so they are computed by functions of the shape;
    the assignment is interpreted on values here and on buffers in [store]. *)

Definition composite (pm : option (image * array2 Z)) (img : image) : image :=
  match pm with
  | None => img
  | Some (patch, mask) => cv.copyTo patch mask img
  end.

(** [findHomography], [warpPerspective] onto the scene frame with a white
    border, grey mask below [t] (sunglasses: 200, firecracker: 240). *)
Definition white_bg_patch (c : cv.CV2) (asset : image)
    (pts_src pts_tar : list vec2) (shp : nat * nat) (t : Z)
    : image * array2 Z :=
  let h_mat := cv.findHomography c pts_src pts_tar in
  let patch := cv.warpPerspective c asset h_mat (shp.2, shp.1) cv.white in
  let mask := cv.cvtColor_BGR2GRAY c patch in
  let mask := np.astype_uint8 (np.lt_scalar mask t) in
  (patch, mask).

Definition anchors_src (a b : Q) (hm wm : nat) : list vec2 :=
  [ (a * Qnat wm, a * Qnat hm); (a * Qnat wm, b * Qnat hm);
    (b * Qnat wm, a * Qnat hm); (b * Qnat wm, b * Qnat hm) ].

(** ** apply_sunglasses_effect *)

Definition sunglasses_tar (kpt_leye kpt_reye : vec2) : list vec2 :=
  (* orthogonal vector to the left-to-right eyes *)
  let vo := np.mul (np.smul (1 # 2) (np.rev (np.sub kpt_reye kpt_leye)))
                   (- (1), 1) in
  [ np.add kpt_reye vo; np.sub kpt_reye vo;
    np.add kpt_leye vo; np.sub kpt_leye vo ].

Definition sunglasses_patch (c : cv.CV2) (sunglasses_img : image)
    (pts_src : list vec2) (left_eye_index right_eye_index : Z) (kpt_thr : Q)
    (shp : nat * nat) (p : pose) : outcome (option (image * array2 Z)) :=
  e ← eye_gate (keypoints p) left_eye_index right_eye_index kpt_thr;
  match e with
  | None => Ok None
  | Some (kl, kr) =>
      let pts_tar := sunglasses_tar (np.xy kl) (np.xy kr) in
      Ok (Some (white_bg_patch c sunglasses_img pts_src pts_tar shp 200))
  end.

Definition sunglasses_body (c : cv.CV2) (sunglasses_img : image)
    (pts_src : list vec2) (left_eye_index right_eye_index : Z) (kpt_thr : Q)
    (img : image) (p : pose) : outcome image :=
  pm ← sunglasses_patch c sunglasses_img pts_src
         left_eye_index right_eye_index kpt_thr (np.shape img) p;
  Ok (composite pm img).

Definition apply_sunglasses_effect (c : cv.CV2) (img : image)
    (pose_results : list pose) (sunglasses_img : image)
    (left_eye_index right_eye_index : Z) (kpt_thr : Q) : outcome image :=
  let '(hm, wm) := np.shape sunglasses_img in
  let pts_src := anchors_src (3 # 10) (7 # 10) hm wm in
  for_each (sunglasses_body c sunglasses_img pts_src
              left_eye_index right_eye_index kpt_thr) pose_results img.

(** ** apply_hat_effect *)

Definition hat_tar (kpt_leye kpt_reye : vec2) : list vec2 :=
  let vo := np.mul (np.smul (1 # 2) (np.rev (np.sub kpt_reye kpt_leye)))
                   (- (1), 1) in
  let veye := np.smul (1 # 2) (np.sub kpt_reye kpt_leye) in
  [ np.add (np.add kpt_reye (np.smul 1 veye)) (np.smul 5 vo);
    np.add (np.add kpt_reye (np.smul 1 veye)) (np.smul 1 vo);
    np.add (np.sub kpt_leye (np.smul 1 veye)) (np.smul 5 vo);
    np.add (np.sub kpt_leye (np.smul 1 veye)) (np.smul 1 vo) ].

(** The asset has four channels; [borderValue=(255, 255, 255)] leaves the
    fourth at 0. [patch[:, :, -1]] is the alpha plane, [patch[:, :, :-1]] the
    colour planes. *)
Definition alpha_patch (c : cv.CV2) (hat_img : array2 bgra)
    (pts_src pts_tar : list vec2) (shp : nat * nat) : image * array2 Z :=
  let h_mat := cv.findHomography c pts_src pts_tar in
  let patch := cv.warpPerspective c hat_img h_mat (shp.2, shp.1)
                 (BGRA cv.white 0) in
  let mask := np.gt_scalar (fmap (M := list) (fmap (M := list) alpha) patch) 128 in
  let patch := fmap (M := list) (fmap (M := list) color) patch in
  let mask := np.mask_mul mask (np.gt_scalar (cv.cvtColor_BGR2GRAY c patch) 30) in
  let mask := np.astype_uint8 mask in
  (patch, mask).

Definition hat_patch (c : cv.CV2) (hat_img : array2 bgra)
    (pts_src : list vec2) (left_eye_index right_eye_index : Z) (kpt_thr : Q)
    (shp : nat * nat) (p : pose) : outcome (option (image * array2 Z)) :=
  e ← eye_gate (keypoints p) left_eye_index right_eye_index kpt_thr;
  match e with
  | None => Ok None
  | Some (kl, kr) =>
      let pts_tar := hat_tar (np.xy kl) (np.xy kr) in
      Ok (Some (alpha_patch c hat_img pts_src pts_tar shp))
  end.

Definition hat_body (c : cv.CV2) (hat_img : array2 bgra)
    (pts_src : list vec2) (left_eye_index right_eye_index : Z) (kpt_thr : Q)
    (img : image) (p : pose) : outcome image :=
  pm ← hat_patch c hat_img pts_src
         left_eye_index right_eye_index kpt_thr (np.shape img) p;
  Ok (composite pm img).

(** On values [img.copy()] is the identity; [store.apply_hat_effect_buf] tells
    the buffers apart. *)
Definition apply_hat_effect (c : cv.CV2) (img : image)
    (pose_results : list pose) (hat_img : array2 bgra)
    (left_eye_index right_eye_index : Z) (kpt_thr : Q) : outcome image :=
  let img_orig := img in
  let img := img_orig in
  let '(hm, wm) := np.shape hat_img in
  let a := 3 # 10 in
  let b := 7 # 10 in
  let pts_src := anchors_src a b hm wm in
  for_each (hat_body c hat_img pts_src
              left_eye_index right_eye_index kpt_thr) pose_results img.

(** ** apply_firecracker_effect *)

(** The four corners hung below one wrist; [w_tar / 2] is a Python
    division. *)
Definition firecracker_tar (w_tar h_tar : Q) (kpt_wrist : vec2)
    : outcome (list vec2) :=
  w2 ← py_div w_tar 2;
  Ok [ np.sub kpt_wrist (w2, 0); np.sub kpt_wrist (w2, - h_tar);
       np.add kpt_wrist (w2, 0); np.add kpt_wrist (w2, h_tar) ].

(** One [if kpts[wrist_idx, 2] > kpt_thr:] block, up to the patch and mask. *)
Definition firecracker_patch (c : cv.CV2) (firecracker_img : image)
    (pts_src : list vec2) (w_tar h_tar : Q) (wrist_idx : Z) (kpt_thr : Q)
    (kpts : list keypoint) (shp : nat * nat)
    : outcome (option (image * array2 Z)) :=
  k ← np.index kpts wrist_idx;
  if Qltb kpt_thr (score k) then
    pts_tar ← firecracker_tar w_tar h_tar (np.xy k);
    Ok (Some (white_bg_patch c firecracker_img pts_src pts_tar shp 240))
  else Ok None.

Definition firecracker_body (c : cv.CV2) (firecracker_img : image)
    (pts_src : list vec2) (w_tar h_tar : Q)
    (left_wrist_idx right_wrist_idx : Z) (kpt_thr : Q)
    (img : image) (p : pose) : outcome image :=
  let kpts := keypoints p in
  pm ← firecracker_patch c firecracker_img pts_src w_tar h_tar
         left_wrist_idx kpt_thr kpts (np.shape img);
  let img := composite pm img in
  pm ← firecracker_patch c firecracker_img pts_src w_tar h_tar
         right_wrist_idx kpt_thr kpts (np.shape img);
  Ok (composite pm img).

(** [h_tar = h / 3] and [w_tar = h_tar / hm * wm] are Python scalar
    divisions, evaluated once before the loop. *)
Definition firecracker_size (hm wm h : nat) : outcome (Q * Q) :=
  h_tar ← py_div (Qnat h) 3;
  q ← py_div h_tar (Qnat hm);
  Ok (q * Qnat wm, h_tar).

Definition apply_firecracker_effect (c : cv.CV2) (img : image)
    (pose_results : list pose) (firecracker_img : image)
    (left_wrist_idx right_wrist_idx : Z) (kpt_thr : Q) : outcome image :=
  let '(hm, wm) := np.shape firecracker_img in
  let pts_src := anchors_src 0 1 hm wm in
  let '(h, w) := np.shape img in
  sz ← firecracker_size hm wm h;
  let '(w_tar, h_tar) := sz in
  for_each (firecracker_body c firecracker_img pts_src w_tar h_tar
              left_wrist_idx right_wrist_idx kpt_thr) pose_results img.

(** ** Buffers: who owns the array that [img] names

    Python passes [img] by reference. [cv2.copyTo(patch, mask, img)] writes
    into the buffer of [img] when it has the size of [patch] and hands the
    same object back; [img.copy()] and a reallocating [copyTo] produce a new
    buffer. A heap of arrays makes this visible. *)
Module store.

Abbreviation loc := positive.
Abbreviation heap := (gmap positive image).

(** References come from the caller or from [alloc], so they are bound. *)
Definition read (σ : heap) (l : loc) : image := default [] (σ !! l).

Definition alloc (v : image) (σ : heap) : loc * heap :=
  let l := fresh (dom σ) in (l, <[l:=v]> σ).

(** [img.copy()] *)
Definition copy (l : loc) (σ : heap) : loc * heap := alloc (read σ l) σ.

(** [img = cv2.copyTo(patch, mask, img)] *)
Definition copyTo_buf (patch : image) (mask : array2 Z) (st : loc * heap)
    : loc * heap :=
  let dst := read st.2 st.1 in
  if cv.same_size patch dst
  then (st.1, <[st.1 := cv.masked_copy patch mask dst]> st.2)
  else alloc (cv.copyTo patch mask dst) st.2.

Definition composite_buf (pm : option (image * array2 Z)) (st : loc * heap)
    : loc * heap :=
  match pm with
  | None => st
  | Some (patch, mask) => copyTo_buf patch mask st
  end.

Definition sunglasses_body_buf (c : cv.CV2) (sunglasses_img : image)
    (pts_src : list vec2) (left_eye_index right_eye_index : Z) (kpt_thr : Q)
    (st : loc * heap) (p : pose) : outcome (loc * heap) :=
  pm ← sunglasses_patch c sunglasses_img pts_src
         left_eye_index right_eye_index kpt_thr
         (np.shape (read st.2 st.1)) p;
  Ok (composite_buf pm st).

Definition apply_sunglasses_effect_buf (c : cv.CV2) (img : loc)
    (pose_results : list pose) (sunglasses_img : image)
    (left_eye_index right_eye_index : Z) (kpt_thr : Q) (σ : heap)
    : outcome (loc * heap) :=
  let '(hm, wm) := np.shape sunglasses_img in
  let pts_src := anchors_src (3 # 10) (7 # 10) hm wm in
  for_each (sunglasses_body_buf c sunglasses_img pts_src
              left_eye_index right_eye_index kpt_thr) pose_results (img, σ).

Definition hat_body_buf (c : cv.CV2) (hat_img : array2 bgra)
    (pts_src : list vec2) (left_eye_index right_eye_index : Z) (kpt_thr : Q)
    (st : loc * heap) (p : pose) : outcome (loc * heap) :=
  pm ← hat_patch c hat_img pts_src
         left_eye_index right_eye_index kpt_thr
         (np.shape (read st.2 st.1)) p;
  Ok (composite_buf pm st).

Definition apply_hat_effect_buf (c : cv.CV2) (img : loc)
    (pose_results : list pose) (hat_img : array2 bgra)
    (left_eye_index right_eye_index : Z) (kpt_thr : Q) (σ : heap)
    : outcome (loc * heap) :=
  let '(img_orig, σ) := copy img σ in
  let '(img, σ) := copy img_orig σ in
  let '(hm, wm) := np.shape hat_img in
  let a := 3 # 10 in
  let b := 7 # 10 in
  let pts_src := anchors_src a b hm wm in
  for_each (hat_body_buf c hat_img pts_src
              left_eye_index right_eye_index kpt_thr) pose_results (img, σ).






(** What an exception leaves behind: the state a loop has reached when it
    ends or when a turn raises, for a body that raises before it writes (the
    sunglasses and hat bodies raise in the keypoint gate only, ahead of
    [cv2.copyTo]). *)
Fixpoint for_each_raising {S X : Type} (body : S → X → outcome S)
    (xs : list X) (s : S) : S * option fault :=
  match xs with
  | [] => (s, None)
  | x :: xs' =>
      match body s x with
      | Ok s' => for_each_raising body xs' s'
      | Fault f => (s, Some f)
      end
  end.

Definition apply_sunglasses_effect_raising (c : cv.CV2) (img : loc)
    (pose_results : list pose) (sunglasses_img : image)
    (left_eye_index right_eye_index : Z) (kpt_thr : Q) (σ : heap)
    : (loc * heap) * option fault :=
  let '(hm, wm) := np.shape sunglasses_img in
  let pts_src := anchors_src (3 # 10) (7 # 10) hm wm in
  for_each_raising (sunglasses_body_buf c sunglasses_img pts_src
                      left_eye_index right_eye_index kpt_thr)
    pose_results (img, σ).

Definition apply_hat_effect_raising (c : cv.CV2) (img : loc)
    (pose_results : list pose) (hat_img : array2 bgra)
    (left_eye_index right_eye_index : Z) (kpt_thr : Q) (σ : heap)
    : (loc * heap) * option fault :=
  let '(img_orig, σ) := copy img σ in
  let '(img, σ) := copy img_orig σ in
  let '(hm, wm) := np.shape hat_img in
  let a := 3 # 10 in
  let b := 7 # 10 in
  let pts_src := anchors_src a b hm wm in
  for_each_raising (hat_body_buf c hat_img pts_src
                      left_eye_index right_eye_index kpt_thr)
    pose_results (img, σ).

End store.

(** Equality of points up to the value of their coordinates. *)
Definition veq (u v : vec2) : Prop := u.1 == v.1 ∧ u.2 == v.2.

(** ** Projective geometry of four point pairs *)
Module homography.

Definition vec3 : Type := (Q * Q * Q)%type.
(** Rows of a 3x3 matrix. *)
Definition mat3 : Type := (vec3 * vec3 * vec3)%type.

Definition veq3 (u v : vec3) : Prop :=
  u.1.1 == v.1.1 ∧ u.1.2 == v.1.2 ∧ u.2 == v.2.

(** The point [p] in homogeneous coordinates, scaled by [k]. *)
Definition hom (k : Q) (p : vec2) : vec3 := (k * p.1, k * p.2, k).

(** Twice the signed area of the triangle [p q r]: zero exactly when the
    three points are collinear. *)
Definition orient (p q r : vec2) : Q :=
  (q.1 - p.1) * (r.2 - p.2) - (q.2 - p.2) * (r.1 - p.1).

Definition dot3 (u v : vec3) : Q :=
  u.1.1 * v.1.1 + u.1.2 * v.1.2 + u.2 * v.2.

Definition mulv (m : mat3) (v : vec3) : vec3 :=
  (dot3 m.1.1 v, dot3 m.1.2 v, dot3 m.2 v).

Definition col (m : mat3) (k : vec3 → Q) : vec3 := (k m.1.1, k m.1.2, k m.2).

Definition mmul (a b : mat3) : mat3 :=
  let c1 := col b (λ r, r.1.1) in
  let c2 := col b (λ r, r.1.2) in
  let c3 := col b (λ r, r.2) in
  ((dot3 a.1.1 c1, dot3 a.1.1 c2, dot3 a.1.1 c3),
   (dot3 a.1.2 c1, dot3 a.1.2 c2, dot3 a.1.2 c3),
   (dot3 a.2 c1, dot3 a.2 c2, dot3 a.2 c3)).

(** The adjugate: [mmul m (adj m)] is [det m] times the identity. *)
Definition adj (m : mat3) : mat3 :=
  let '((a, b, c), (d, e, f), (g, h, i)) := m in
  ((e * i - f * h, c * h - b * i, b * f - c * e),
   (f * g - d * i, a * i - c * g, c * d - a * f),
   (d * h - e * g, b * g - a * h, a * e - b * d)).

(** The matrix sending the three unit vectors to (multiples of) the first
    three points and [(1, 1, 1)] to a multiple of the fourth. *)
Definition basis (p1 p2 p3 p4 : vec2) : mat3 :=
  let l1 := orient p4 p2 p3 in
  let l2 := orient p1 p4 p3 in
  let l3 := orient p1 p2 p4 in
  ((l1 * p1.1, l2 * p2.1, l3 * p3.1),
   (l1 * p1.2, l2 * p2.2, l3 * p3.2),
   (l1, l2, l3)).

(** Modelled from the spec: [cv2.findHomography], whose body lives in
    OpenCV. The spec has it "compute the unique projective transform
    (homography) mapping the asset's 4 fixed source anchor points to the 4
    target points", a 3x3 matrix fixed up to scale by the four pairs. It is
    computed here through the two projective frames of the point sets. *)
Definition findHomography_exact (pts_src pts_tar : list vec2) : option mat3 :=
  match pts_src, pts_tar with
  | [p1; p2; p3; p4], [q1; q2; q3; q4] =>
      Some (mmul (basis q1 q2 q3 q4) (adj (basis p1 p2 p3 p4)))
  | _, _ => None
  end.

(** Modelled from the spec: mapping a point through a projective
    transform; a point sent to infinity has no image. *)
Definition perspective (m : mat3) (p : vec2) : option vec2 :=
  let '(x, y, w) := mulv m (p.1, p.2, 1) in
  if Qeq_bool w 0 then None else Some (x / w, y / w).

(** No three of the four points on a line. *)
Definition general_position (pts : list vec2) : Prop :=
  match pts with
  | [p1; p2; p3; p4] =>
      ¬ orient p1 p2 p3 == 0 ∧ ¬ orient p4 p2 p3 == 0 ∧
      ¬ orient p1 p4 p3 == 0 ∧ ¬ orient p1 p2 p4 == 0
  | _ => False
  end.

End homography.

(** The orientation of a list of anchors: twice the signed area of the
    triangle of its first three points. *)
Definition orientation (pts : list vec2) : Q :=
  match pts with
  | p1 :: p2 :: p3 :: _ => homography.orient p1 p2 p3
  | _ => 0
  end.

(** ** A reference implementation of the OpenCV calls

    Nearest-neighbour sampling in exact arithmetic: enough to run the
    effects on small images. *)
Module ref.

Definition nearest (q : Q) : Z := Qfloor (q + (1 # 2)).

(** BORDER_REPLICATE: clamp an index into [0, n). *)
Definition clamp (n : nat) (k : Z) : nat :=
  Z.to_nat (Z.max 0 (Z.min k (Z.of_nat n - 1))).

Definition sample_replicate (img : image) (x y : Q) : bgr :=
  let row := default [] (img !! clamp (length img) (nearest y)) in
  default cv.black (row !! clamp (length row) (nearest x)).

Definition remap_nearest (img : image) (xx yy : array2 Q) : image :=
  np.map2 (sample_replicate img) xx yy.

(** BORDER_CONSTANT: outside the source, the border pixel. *)
Definition sample_constant {P : Type} (src : array2 P) (border : P)
    (x y : Q) : P :=
  let i := nearest y in
  let j := nearest x in
  if ((0 <=? i) && (0 <=? j))%Z
  then default border (src !! Z.to_nat i ≫= (.!! Z.to_nat j))
  else border.

(** Fractions are kept in lowest terms, which leaves their values alone. *)
Definition reduce3 (v : homography.vec3) : homography.vec3 :=
  (Qred v.1.1, Qred v.1.2, Qred v.2).
Definition reduce (m : homography.mat3) : homography.mat3 :=
  (reduce3 m.1.1, reduce3 m.1.2, reduce3 m.2).

Definition homography_reduced (pts_src pts_tar : list vec2)
    : option homography.mat3 :=
  reduce <$> homography.findHomography_exact pts_src pts_tar.

(** Each destination pixel is looked up through the inverse transform. *)
Definition warp_nearest (P : Type) (src : array2 P)
    (m : option homography.mat3) (dsize : nat * nat) (border : P)
    : array2 P :=
  let inverse := (λ m, reduce (homography.adj m)) <$> m in
  (λ i : nat,
     (λ j : nat,
        match inverse with
        | None => border
        | Some m' =>
            match homography.perspective m' (Qnat j, Qnat i) with
            | Some s => sample_constant src border s.1 s.2
            | None => border
            end
        end) <$> seq 0 dsize.1) <$> seq 0 dsize.2.

(** The 8-bit fixed-point luma of BGR2GRAY. *)
Definition luma (p : bgr) : Z :=
  Z.shiftr (chR p * 4899 + chG p * 9617 + chB p * 1868 + 8192) 14.

Definition gray_plane (img : image) : array2 Z :=
  fmap (M := list) (fmap (M := list) luma) img.

Definition cv2 : cv.CV2 := {|
  cv.hmat := option homography.mat3;
  cv.remap := remap_nearest;
  cv.findHomography := homography_reduced;
  cv.warpPerspective := warp_nearest;
  cv.cvtColor_BGR2GRAY := gray_plane
|}.

End ref.

(** ** What the effects rely on from OpenCV *)

(** Row lengths of an array; an [h x w] array has [h] rows of length [w]. *)
Definition sizes {A : Type} (a : array2 A) : list nat := length <$> a.
Definition rect {A : Type} (h w : nat) (a : array2 A) : Prop :=
  sizes a = replicate h w.

(** [remap] returns an array of the size of its maps, [warpPerspective] one
    of size [dsize], [cvtColor] one of the size of its argument. *)
Record cv_sizes (c : cv.CV2) : Prop := {
  remap_sizes : ∀ img xx yy,
    sizes xx = sizes yy → sizes (cv.remap c img xx yy) = sizes xx;
  warp_sizes : ∀ (P : Type) (src : array2 P) m w h border,
    rect h w (cv.warpPerspective c src m (w, h) border);
  gray_sizes : ∀ img, sizes (cv.cvtColor_BGR2GRAY c img) = sizes img
}.

(** [a[i][j]] *)
Definition at2 {A : Type} (a : array2 A) (i j : nat) : option A :=
  a !! i ≫= (.!! j).

(** ** The specification's formulas *)
Module Spec.

Definition coefficient : Q := 1 / 1000.
Definition epsilon : Q := 1 / 100000.

(** "new = (old - anchor) / (1 + k1/r_norm) + anchor", with r_norm the
    squared distance to the anchor, regularised by epsilon and normalised
    by the scale. *)
Definition r_norm (scale : Q) (anchor old : vec2) : Q :=
  ((old.1 - anchor.1) ^ 2 + (old.2 - anchor.2) ^ 2 + epsilon) / scale.

Definition remap_update (scale : Q) (anchor old : vec2) : vec2 :=
  ((old.1 - anchor.1) / (1 + coefficient / r_norm scale anchor old) + anchor.1,
   (old.2 - anchor.2) / (1 + coefficient / r_norm scale anchor old) + anchor.2).

(** "scale is the squared bounding-box diagonal" *)
Definition diagonal2 (x1 y1 x2 y2 : Q) : Q := (x2 - x1) ^ 2 + (y2 - y1) ^ 2.

Definition plus (u v : vec2) : vec2 := (u.1 + v.1, u.2 + v.2).
Definition minus (u v : vec2) : vec2 := (u.1 - v.1, u.2 - v.2).
Definition times (k : Q) (v : vec2) : vec2 := (k * v.1, k * v.2).
Definition half (v : vec2) : vec2 := (v.1 / 2, v.2 / 2).
Definition rot90 (v : vec2) : vec2 := (- v.2, v.1).
Definition inner (u v : vec2) : Q := u.1 * v.1 + u.2 * v.2.

(** "veye is half the eye-to-eye vector", "vo is half the eye-to-eye
    vector rotated 90 degrees" *)
Definition veye (left_eye right_eye : vec2) : vec2 :=
  half (minus right_eye left_eye).
Definition vo (left_eye right_eye : vec2) : vec2 :=
  rot90 (half (minus right_eye left_eye)).

Definition sunglasses_targets (left_eye right_eye : vec2) : list vec2 :=
  let vo := vo left_eye right_eye in
  [ plus right_eye vo; minus right_eye vo;
    plus left_eye vo; minus left_eye vo ].

Definition hat_targets (left_eye right_eye : vec2) : list vec2 :=
  let vo := vo left_eye right_eye in
  let veye := veye left_eye right_eye in
  [ plus (plus right_eye veye) (times 5 vo);
    plus (plus right_eye veye) (times 1 vo);
    plus (minus left_eye veye) (times 5 vo);
    plus (minus left_eye veye) (times 1 vo) ].

(** "source anchors at 30%/70% of the asset's width and height" *)
Definition source_anchors (width height : Q) : list vec2 :=
  [ (3 / 10 * width, 3 / 10 * height); (3 / 10 * width, 7 / 10 * height);
    (7 / 10 * width, 3 / 10 * height); (7 / 10 * width, 7 / 10 * height) ].



(** "meet or exceed the threshold" *)
Definition eligible (left_eye right_eye : keypoint) (thr : Q) : Prop :=
  thr <= score left_eye ∧ thr <= score right_eye.

End Spec.

(** ** Runs that differ in the representation of fractions only *)

(** Two runs agree: both fail alike, or both return related results. *)
Definition agree {A : Type} (R : A → A → Prop) (o o' : outcome A) : Prop :=
  match o, o' with
  | Ok a, Ok a' => R a a'
  | Fault e, Fault e' => e = e'
  | _, _ => False
  end.

Definition grid_eq (a b : array2 Q) : Prop := Forall2 (Forall2 Qeq) a b.

Definition grids_eq (g g' : array2 Q * array2 Q) : Prop :=
  grid_eq g.1 g'.1 ∧ grid_eq g.2 g'.2.

(** The grids with every fraction in lowest terms. *)
Definition reduced (g : array2 Q * array2 Q) : array2 Q * array2 Q :=
  (fmap (M := list) (fmap (M := list) Qred) g.1,
   fmap (M := list) (fmap (M := list) Qred) g.2).

(** ** Sample inputs for concrete runs *)
Module sample.

Definition grey (v : Z) : bgr := BGR v v v.

(** A 3 x 2 white scene, a dark 2 x 2 asset, its four-channel version. *)
Definition scene : image :=
  [[cv.white; cv.white]; [cv.white; cv.white]; [cv.white; cv.white]].
Definition asset : image :=
  [[grey 50; grey 50]; [grey 50; grey 50]].

(** Keypoint 0 at (0, 1) with confidence 0.9, keypoint 1 at (1, 1). *)
Definition person (conf1 : Q) : pose :=
  Pose [0; 0; 3; 4] [Keypoint 0 1 (9 # 10); Keypoint 1 1 conf1].

(** A one-row image and two people side by side. *)
Definition row : image := [[grey 10; grey 20; grey 30; grey 40]].
Definition first : pose :=
  Pose [0; 0; 24; 32] [Keypoint 0 0 (9 # 10); Keypoint 1 0 (9 # 10)].
Definition second : pose :=
  Pose [0; 0; 24; 32] [Keypoint 2 0 (9 # 10); Keypoint 3 0 (9 # 10)].

(** A 2 x 6 white scene and two people far apart. *)
Definition street : image := replicate 2 (replicate 6 cv.white).
Definition walker : pose := Pose [] [Keypoint 0 1 1; Keypoint 1 1 1].
Definition runner : pose := Pose [] [Keypoint 4 1 1; Keypoint 5 1 1].

End sample.

(** * Properties *)

(** ** Sequencing *)

Lemma bind_Ok {A B} (a : A) (f : A → outcome B) : Ok a ≫= f = f a.
Proof. reflexivity. Qed.

Lemma bind_inv {A B} (m : outcome A) (f : A → outcome B) b :
  m ≫= f = Ok b → ∃ a, m = Ok a ∧ f a = Ok b.
Proof. destruct m as [a|]; [|done]. rewrite bind_Ok. eauto. Qed.


Lemma for_each_app {S X} (body : S → X → outcome S) xs ys s :
  for_each body (xs ++ ys) s = for_each body xs s ≫= for_each body ys.
Proof.
  revert s. induction xs as [|x xs IH]; intros s; [done|].
  simpl. destruct (body s x); [apply IH | done].
Qed.

Lemma for_each_one {S X} (body : S → X → outcome S) x s :
  for_each body [x] s = body s x.
Proof. simpl. by destruct (body s x). Qed.

Lemma for_each_two {S X} (body : S → X → outcome S) x y s :
  for_each body [x; y] s = (s1 ← body s x; body s1 y).
Proof.
  simpl. destruct (body s x) as [s1|]; [|done].
  rewrite !bind_Ok. by destruct (body s1 y).
Qed.

Lemma for_each_invariant {S X} (body : S → X → outcome S) (P : S → Prop) xs :
  (∀ s x s', P s → body s x = Ok s' → P s') →
  ∀ s s', P s → for_each body xs s = Ok s' → P s'.
Proof.
  intros Hbody. induction xs as [|x xs IH]; intros s s' Hs; simpl.
  - by intros [= <-].
  - destruct (body s x) as [s1|] eqn:E; [|done]. simpl. eauto.
Qed.


(** ** Numbers *)

Lemma Qltb_lt a b : Qltb a b = true ↔ a < b.
Proof.
  unfold Qltb. rewrite negb_true_iff. split.
  - intros H. apply Qnot_le_lt. intros Hle%Qle_bool_iff. congruence.
  - intros H. destruct (Qle_bool b a) eqn:E; [|done].
    apply Qle_bool_iff in E. lra.
Qed.

Lemma Qltb_ge a b : Qltb a b = false ↔ b <= a.
Proof. unfold Qltb. rewrite negb_false_iff. apply Qle_bool_iff. Qed.

Lemma np_div_ok a b : ¬ b == 0 → np_div a b = Ok (a / b).
Proof.
  intros H. unfold np_div. destruct (Qeq_bool b 0) eqn:E; [|done].
  apply Qeq_bool_iff in E. contradiction.
Qed.

Lemma py_div_ok a b : ¬ b == 0 → py_div a b = Ok (a / b).
Proof.
  intros H. unfold py_div. destruct (Qeq_bool b 0) eqn:E; [|done].
  apply Qeq_bool_iff in E. contradiction.
Qed.

Lemma Qnat_nonzero n : n ≠ 0%nat → ¬ Qnat n == 0.
Proof. intros Hn. unfold Qnat, Qeq. simpl. lia. Qed.

Lemma sq_nonneg (t : Q) : 0 <= t ^ 2.
Proof. assert (t ^ 2 == t * t) as -> by ring. nra. Qed.

Lemma Qmult_nonzero a b : ¬ a == 0 → ¬ b == 0 → ¬ a * b == 0.
Proof. intros Ha Hb H. apply Qmult_integral in H. tauto. Qed.

Ltac div_step tac := rewrite np_div_ok by tac; rewrite ?bind_Ok.

(** ** Indexing and the keypoint gate *)

Lemma index_lookup {A} (a : list A) (i : nat) x :
  a !! i = Some x → np.index a (Z.of_nat i) = Ok x.
Proof.
  intros H. pose proof (lookup_lt_Some _ _ _ H) as Hlt. unfold np.index.
  destruct (Z.ltb_spec (Z.of_nat i) 0) as [|_]; [lia|].
  destruct (Z.leb_spec 0 (Z.of_nat i)); [|lia].
  destruct (Z.ltb_spec (Z.of_nat i) (Z.of_nat (length a))); [|lia].
  simpl. by rewrite Nat2Z.id, H.
Qed.

Lemma eye_gate_decide kpts l r thr kl kr :
  np.index kpts l = Ok kl → np.index kpts r = Ok kr →
  eye_gate kpts l r thr =
    Ok (if Qle_bool thr (score kl) && Qle_bool thr (score kr)
        then Some (kl, kr) else None).
Proof.
  intros Hl Hr. unfold eye_gate, Qltb. rewrite Hl, bind_Ok.
  destruct (Qle_bool thr (score kl)); simpl; [|done].
  rewrite Hr, bind_Ok. by destruct (Qle_bool thr (score kr)).
Qed.

Lemma eye_gate_pass kpts l r thr kl kr :
  np.index kpts l = Ok kl → np.index kpts r = Ok kr →
  Spec.eligible kl kr thr →
  eye_gate kpts l r thr = Ok (Some (kl, kr)).
Proof.
  intros Hl Hr [H1%Qle_bool_iff H2%Qle_bool_iff].
  by rewrite (eye_gate_decide _ _ _ _ _ _ Hl Hr), H1, H2.
Qed.

Lemma eye_gate_low kpts l r thr kl :
  np.index kpts l = Ok kl →
  score kl < thr ∨ (∃ kr, np.index kpts r = Ok kr ∧ score kr < thr) →
  eye_gate kpts l r thr = Ok None.
Proof.
  intros Hl Hlow. unfold eye_gate. rewrite Hl, bind_Ok.
  destruct (Qltb (score kl) thr) eqn:E; [done|]. apply Qltb_ge in E.
  destruct Hlow as [?|(kr & Hr & Hlt%Qltb_lt)]; [lra|].
  by rewrite Hr, bind_Ok, Hlt.
Qed.


(** ** Arrays *)

Lemma traverse_Ok {A B} (f : A → outcome B) (g : A → B) l :
  (∀ x, f x = Ok (g x)) → np.traverse f l = Ok (g <$> l).
Proof.
  intros H. induction l as [|x l IH]; [done|].
  simpl. rewrite H, bind_Ok, IH. done.
Qed.



Lemma sizes_fmap {A B} (f : A → B) (a : array2 A) :
  sizes (fmap (M := list) (fmap (M := list) f) a) = sizes a.
Proof.
  unfold sizes. rewrite <- list_fmap_compose. apply list_fmap_ext.
  intros _ r _. simpl. apply length_fmap.
Qed.

Lemma sizes_map2 {A B C} (f : A → B → C) a b :
  sizes a = sizes b → sizes (np.map2 f a b) = sizes a.
Proof.
  unfold sizes, np.map2. revert b.
  induction a as [|r a IH]; intros [|s b]; simpl; try done.
  intros [= Hl Hs]. f_equal; [|by apply IH].
  rewrite length_zip_with. lia.
Qed.

Lemma at2_map2 {A B C} (f : A → B → C) a b i j x y :
  at2 a i j = Some x → at2 b i j = Some y →
  at2 (np.map2 f a b) i j = Some (f x y).
Proof.
  unfold at2, np.map2. intros Ha Hb. rewrite lookup_zip_with.
  destruct (a !! i) as [r|]; [|done]. destruct (b !! i) as [s|]; [|done].
  simpl in *. rewrite lookup_zip_with, Ha, Hb. done.
Qed.


Lemma at2_sizes {A B} (a : array2 A) (b : array2 B) i j x :
  sizes a = sizes b → at2 a i j = Some x → ∃ y, at2 b i j = Some y.
Proof.
  unfold at2, sizes. intros Hs Ha.
  destruct (a !! i) as [ra|] eqn:Ea; [|done]. simpl in Ha.
  assert (Hb : (length <$> b) !! i = Some (length ra)).
  { by rewrite <- Hs, list_lookup_fmap, Ea. }
  rewrite list_lookup_fmap in Hb.
  destruct (b !! i) as [rb|]; [|done]. simpl in *. injection Hb as Hb.
  apply lookup_lt_is_Some. rewrite Hb. by eapply lookup_lt_Some.
Qed.

Lemma fmap_map2 {A B C D} (h : C → D) (f : A → B → C) a b :
  fmap (M := list) (fmap (M := list) h) (np.map2 f a b)
  = np.map2 (λ x y, h (f x y)) a b.
Proof.
  unfold np.map2. revert b. induction a as [|r a IH]; intros [|s b]; try done.
  simpl. f_equal; [|apply IH].
  clear. revert s. induction r as [|x r IH]; intros [|y s]; try done.
  simpl. f_equal. apply IH.
Qed.

Lemma broadcast2_Ok {C} (f : Q → Q → outcome C) (g : Q → Q → C) a b :
  (∀ x y, f x y = Ok (g x y)) → np.broadcast2 f a b = Ok (np.map2 g a b).
Proof.
  intros H. unfold np.broadcast2.
  rewrite (traverse_Ok _ (fmap (M := list) (λ p : Q * Q, g p.1 p.2))).
  - f_equal. apply fmap_map2.
  - intros r. apply traverse_Ok. intros [x y]. apply H.
Qed.


Lemma same_size_sizes {A B} (a : array2 A) (b : array2 B) :
  cv.same_size a b = true ↔ sizes a = sizes b.
Proof. unfold cv.same_size, sizes. apply bool_decide_eq_true. Qed.

Lemma fmap_const_replicate {A B} (c : B) (l : list A) :
  (λ _, c) <$> l = replicate (length l) c.
Proof. induction l as [|x l IH]; [done|]. simpl. f_equal. exact IH. Qed.

Lemma shape_sizes {A} (a : array2 A) :
  np.shape a = (length (sizes a), default 0%nat (head (sizes a))).
Proof. unfold np.shape, sizes. rewrite length_fmap. by destruct a. Qed.

Lemma rect_shape_eq {A B} (a : array2 A) (b : array2 B) h w :
  rect h w a → rect h w b → np.shape a = np.shape b.
Proof. unfold rect. intros Ha Hb. rewrite !shape_sizes. congruence. Qed.

Lemma shape_replicate {A} (a : array2 A) h w :
  rect h w a → replicate (np.shape a).1 (np.shape a).2 = replicate h w.
Proof.
  unfold rect. intros H. rewrite shape_sizes, H, length_replicate.
  by destruct h.
Qed.

Lemma meshgrid_sizes h w :
  sizes (np.meshgrid (np.arange w) (np.arange h)).1 = replicate h w ∧
  sizes (np.meshgrid (np.arange w) (np.arange h)).2 = replicate h w.
Proof.
  unfold np.meshgrid, np.arange, sizes. simpl.
  rewrite !length_fmap, !length_seq. split.
  - by rewrite fmap_replicate, length_fmap, length_seq.
  - rewrite <- !list_fmap_compose.
    rewrite (list_fmap_ext _ (λ _, w) (seq 0 h)).
    + by rewrite fmap_const_replicate, length_seq.
    + intros _ i _. simpl. apply length_replicate.
Qed.

(** ** The distortion kernel *)

Lemma r_norm_pos scale anchor old :
  0 < scale → 0 < Spec.r_norm scale anchor old.
Proof.
  intros Hs. unfold Spec.r_norm.
  apply Qlt_shift_div_l; [done|]. rewrite Qmult_0_l.
  pose proof (sq_nonneg (old.1 - anchor.1)).
  pose proof (sq_nonneg (old.2 - anchor.2)).
  assert (0 < Spec.epsilon) by reflexivity.
  lra.
Qed.

(** With a positive scale no division of the kernel is by zero, and the
    kernel computes the specification's update. *)
Lemma distort_at_spec scale xc yc x y :
  0 < scale →
  distort_at k1 epe scale xc yc x y
    = Ok (Spec.remap_update scale (xc, yc) (x, y)).
Proof.
  intros Hs. pose proof (r_norm_pos scale (xc, yc) (x, y) Hs) as Hr.
  assert (Hq : 0 < 1 + Spec.coefficient / Spec.r_norm scale (xc, yc) (x, y)).
  { assert (0 < Spec.coefficient / Spec.r_norm scale (xc, yc) (x, y)); [|lra].
    apply Qlt_shift_div_l; [done|]. rewrite Qmult_0_l. reflexivity. }
  unfold distort_at, Spec.remap_update.
  div_step lra.
  change (((x - xc) ^ 2 + (y - yc) ^ 2 + epe) / scale)
    with (Spec.r_norm scale (xc, yc) (x, y)).
  change k1 with Spec.coefficient.
  repeat div_step lra.
  reflexivity.
Qed.

(** C8, as amended. For every anchor, every positive scale and every
    distortion coefficient other than [- epsilon / scale], the kernel maps a
    grid coordinate equal to the anchor to the anchor: the regularised
    normalised radius [epsilon / scale] is positive at [r = 0], so no
    division is by zero and the result is finite. *)
Theorem distort_fixed_point (k scale xc yc : Q) :
  0 < scale → ¬ k == - (epe / scale) →
  0 < (0 + epe) / scale ∧
  ∃ x' y', distort_at k epe scale xc yc xc yc = Ok (x', y') ∧
           x' == xc ∧ y' == yc.
Proof.
  intros Hs Hk.
  assert (Hs' : ¬ scale == 0) by lra.
  assert (He : 0 < epe / scale).
  { apply Qlt_shift_div_l; [done|]. rewrite Qmult_0_l. reflexivity. }
  split.
  { by assert ((0 + epe) / scale == epe / scale) as -> by (field; done). }
  assert (Hr : ((xc - xc) ^ 2 + (yc - yc) ^ 2 + epe) / scale == epe / scale)
    by (field; done).
  assert (Hr' : ¬ ((xc - xc) ^ 2 + (yc - yc) ^ 2 + epe) / scale == 0) by lra.
  assert (Hd : ¬ 1 + k / (((xc - xc) ^ 2 + (yc - yc) ^ 2 + epe) / scale) == 0).
  { rewrite Hr. intros Hd. apply Hk.
    assert (k == (1 + k / (epe / scale)) * (epe / scale) - epe / scale) as ->
      by (field; split; [done | discriminate]).
    rewrite Hd. ring. }
  unfold distort_at.
  repeat div_step done.
  eexists _, _. split; [reflexivity|]. split; unfold Qdiv; ring.
Qed.

Lemma distort_fixed_point_witness :
  0 < 25 ∧ ¬ k1 == - (epe / 25) ∧
  0 < (0 + epe) / 25 ∧
  ∃ x' y', distort_at k1 epe 25 3 4 3 4 = Ok (x', y') ∧ x' == 3 ∧ y' == 4.
Proof.
  split; [reflexivity|]. split; [discriminate|].
  apply (distort_fixed_point k1 25 3 4); [reflexivity | discriminate].
Defined.

(** C8 as stated fails for one coefficient per scale: with
    [k1 = - epsilon / scale] the denominator [1 + k1 / r_norm] vanishes at the
    anchor and the remapped coordinate is [0 / 0]. *)
Lemma distort_fixed_point_singular :
  distort_at (- (1 # 100000)) epe 1 0 0 0 0 = Fault NonFinite ∧
  ¬ (∀ k scale xc yc : Q, 0 < scale →
       ∃ x' y', distort_at k epe scale xc yc xc yc = Ok (x', y') ∧
                x' == xc ∧ y' == yc).
Proof.
  split; [reflexivity|]. intros H.
  destruct (H (- (1 # 100000)) 1 0 0 ltac:(reflexivity)) as (x' & y' & E & _).
  discriminate E.
Qed.

(** ** The bug-eye grids *)

Lemma distort_spec bbox x1 y1 x2 y2 rest g c :
  bbox = x1 :: y1 :: x2 :: y2 :: rest →
  0 < Spec.diagonal2 x1 y1 x2 y2 →
  distort k1 epe bbox g c =
    Ok (np.map2 (λ x y,
          (Spec.remap_update (Spec.diagonal2 x1 y1 x2 y2) c (x, y)).1) g.1 g.2,
        np.map2 (λ x y,
          (Spec.remap_update (Spec.diagonal2 x1 y1 x2 y2) c (x, y)).2) g.1 g.2).
Proof.
  intros -> Hs. unfold distort.
  rewrite (index_lookup _ 2 x2), bind_Ok by done.
  rewrite (index_lookup _ 0 x1), bind_Ok by done.
  rewrite (index_lookup _ 3 y2), bind_Ok by done.
  rewrite (index_lookup _ 1 y1), bind_Ok by done.
  rewrite (broadcast2_Ok _
    (λ x y, Spec.remap_update (Spec.diagonal2 x1 y1 x2 y2) c (x, y))).
  - rewrite bind_Ok, !fmap_map2. done.
  - intros x y. destruct c as [xc yc]. by apply distort_at_spec.
Qed.



(** C3. For an eligible detection with a bounding box of positive diagonal,
    one turn of the bug-eye loop hands [cv2.remap] the grid obtained from the
    current one by the update [new = (old - anchor) / (1 + k1 / r_norm) +
    anchor], first around the left eye and then, on the grid so distorted,
    around the right eye; [r_norm = (r^2 + epsilon) / scale], the scale is
    the squared bounding-box diagonal, [k1 = 0.001] and
    [epsilon = 1e-5]. *)
Theorem bugeye_remap_field (c : cv.CV2) l r thr xx yy img p kl kr
    x1 y1 x2 y2 rest :
  np.index (keypoints p) l = Ok kl →
  np.index (keypoints p) r = Ok kr →
  Spec.eligible kl kr thr →
  bbox p = x1 :: y1 :: x2 :: y2 :: rest →
  0 < Spec.diagonal2 x1 y1 x2 y2 →
  ∃ xx' yy',
    bugeye_body c l r thr ((xx, yy), img) p
      = Ok ((xx', yy'), cv.remap c img xx' yy') ∧
    ∀ i j x y, at2 xx i j = Some x → at2 yy i j = Some y →
      ∃ x' y', at2 xx' i j = Some x' ∧ at2 yy' i j = Some y' ∧
        (x', y') =
          Spec.remap_update (Spec.diagonal2 x1 y1 x2 y2) (np.xy kr)
            (Spec.remap_update (Spec.diagonal2 x1 y1 x2 y2) (np.xy kl) (x, y)).
Proof.
  intros Hl Hr He Hb Hs. unfold bugeye_body.
  rewrite (eye_gate_pass _ _ _ _ kl kr), bind_Ok by done.
  cbn [for_each].
  rewrite (distort_spec _ _ _ _ _ _ _ _ Hb Hs), bind_Ok.
  rewrite (distort_spec _ _ _ _ _ _ _ _ Hb Hs), !bind_Ok.
  eexists _, _. split; [reflexivity|].
  intros i j x y Hx Hy. eexists _, _.
  split; [|split].
  - eapply at2_map2; eapply at2_map2; eassumption.
  - eapply at2_map2; eapply at2_map2; eassumption.
  - reflexivity.
Qed.

Lemma bugeye_remap_field_witness :
  ∃ xx' yy',
    bugeye_body ref.cv2 0 1 (1 # 2)
      (([[0; 1]], [[0; 0]]), [[cv.white; cv.black]]) (sample.person 1)
      = Ok ((xx', yy'), cv.remap ref.cv2 [[cv.white; cv.black]] xx' yy') ∧
    ∀ i j x y, at2 [[0; 1]] i j = Some x → at2 [[0; 0]] i j = Some y →
      ∃ x' y', at2 xx' i j = Some x' ∧ at2 yy' i j = Some y' ∧
        (x', y') =
          Spec.remap_update (Spec.diagonal2 0 0 3 4) (1, 1)
            (Spec.remap_update (Spec.diagonal2 0 0 3 4) (0, 1) (x, y)).
Proof.
  apply (bugeye_remap_field ref.cv2 0 1 (1 # 2) [[0; 1]] [[0; 0]]
           [[cv.white; cv.black]] (sample.person 1)
           (Keypoint 0 1 (9 # 10)) (Keypoint 1 1 1) 0 0 3 4 []).
  - reflexivity.
  - reflexivity.
  - split; simpl; lra.
  - reflexivity.
  - reflexivity.
Defined.

(** ** The frame: nothing changes the size of the working image *)

Lemma masked_copy_sizes {P} (src : array2 P) mask dst s :
  sizes src = s → sizes mask = s → sizes dst = s →
  sizes (cv.masked_copy src mask dst) = s.
Proof.
  intros H1 H2 H3. unfold cv.masked_copy.
  rewrite sizes_map2; rewrite sizes_map2; congruence.
Qed.

Lemma copyTo_sizes src mask dst s :
  sizes src = s → sizes mask = s → sizes dst = s →
  cv.copyTo src mask dst = cv.masked_copy src mask dst ∧
  sizes (cv.copyTo src mask dst) = s.
Proof.
  intros H1 H2 H3. unfold cv.copyTo.
  assert (cv.same_size src dst = true) as ->
    by (apply same_size_sizes; congruence).
  split; [done|]. by apply masked_copy_sizes.
Qed.

Lemma composite_sizes pm img s :
  (∀ patch mask, pm = Some (patch, mask) → sizes patch = s ∧ sizes mask = s) →
  sizes img = s → sizes (composite pm img) = s.
Proof.
  intros Hpm Hs. destruct pm as [[patch mask]|]; [|done].
  destruct (Hpm _ _ eq_refl). simpl. by apply copyTo_sizes.
Qed.

Section frame.
Context (c : cv.CV2) (Hc : cv_sizes c).

Lemma white_bg_patch_sizes asset src tar h w t :
  rect h w (white_bg_patch c asset src tar (h, w) t).1 ∧
  rect h w (white_bg_patch c asset src tar (h, w) t).2.
Proof.
  unfold white_bg_patch, rect, np.astype_uint8, np.lt_scalar. simpl.
  rewrite !sizes_fmap, (gray_sizes c Hc). split; apply (warp_sizes c Hc).
Qed.

Lemma alpha_patch_sizes asset src tar h w :
  rect h w (alpha_patch c asset src tar (h, w)).1 ∧
  rect h w (alpha_patch c asset src tar (h, w)).2.
Proof.
  unfold alpha_patch, rect, np.astype_uint8, np.gt_scalar, np.mask_mul.
  simpl. rewrite !sizes_fmap.
  rewrite sizes_map2; rewrite !sizes_fmap, ?(gray_sizes c Hc), ?sizes_fmap;
    [split| ]; try apply (warp_sizes c Hc). done.
Qed.

Lemma white_bg_patch_frame asset src tar (img : image) t h w :
  rect h w img →
  rect h w (white_bg_patch c asset src tar (np.shape img) t).1 ∧
  rect h w (white_bg_patch c asset src tar (np.shape img) t).2.
Proof.
  intros Hi. unfold rect. rewrite <- (shape_replicate img h w Hi).
  apply (white_bg_patch_sizes asset src tar
           (np.shape img).1 (np.shape img).2 t).
Qed.

Lemma alpha_patch_frame asset src tar (img : image) h w :
  rect h w img →
  rect h w (alpha_patch c asset src tar (np.shape img)).1 ∧
  rect h w (alpha_patch c asset src tar (np.shape img)).2.
Proof.
  intros Hi. unfold rect. rewrite <- (shape_replicate img h w Hi).
  apply (alpha_patch_sizes asset src tar (np.shape img).1 (np.shape img).2).
Qed.

Lemma sunglasses_patch_frame asset src l r thr (img : image) p patch mask h w :
  rect h w img →
  sunglasses_patch c asset src l r thr (np.shape img) p
    = Ok (Some (patch, mask)) →
  rect h w patch ∧ rect h w mask.
Proof.
  intros Hi. unfold sunglasses_patch.
  intros ([[kl kr]|] & _ & [= <- <-])%bind_inv.
  by apply white_bg_patch_frame.
Qed.

Lemma hat_patch_frame asset src l r thr (img : image) p patch mask h w :
  rect h w img →
  hat_patch c asset src l r thr (np.shape img) p = Ok (Some (patch, mask)) →
  rect h w patch ∧ rect h w mask.
Proof.
  intros Hi. unfold hat_patch.
  intros ([[kl kr]|] & _ & [= <- <-])%bind_inv.
  by apply alpha_patch_frame.
Qed.

Lemma firecracker_patch_frame asset src wt ht idx thr kpts (img : image)
    patch mask h w :
  rect h w img →
  firecracker_patch c asset src wt ht idx thr kpts (np.shape img)
    = Ok (Some (patch, mask)) →
  rect h w patch ∧ rect h w mask.
Proof.
  intros Hi. unfold firecracker_patch. intros (k & _ & H)%bind_inv.
  destruct (Qltb thr (score k)); [|done].
  apply bind_inv in H as (tar & _ & [= <- <-]).
  by apply white_bg_patch_frame.
Qed.

Lemma sunglasses_body_frame asset src l r thr img p img' h w :
  rect h w img →
  sunglasses_body c asset src l r thr img p = Ok img' → rect h w img'.
Proof.
  intros Hi. unfold sunglasses_body. intros (pm & Hpm & [= <-])%bind_inv.
  apply composite_sizes; [|done]. intros patch mask ->.
  by eapply sunglasses_patch_frame.
Qed.

Lemma hat_body_frame asset src l r thr img p img' h w :
  rect h w img →
  hat_body c asset src l r thr img p = Ok img' → rect h w img'.
Proof.
  intros Hi. unfold hat_body. intros (pm & Hpm & [= <-])%bind_inv.
  apply composite_sizes; [|done]. intros patch mask ->.
  by eapply hat_patch_frame.
Qed.

Lemma firecracker_body_frame asset src wt ht li ri thr img p img' h w :
  rect h w img →
  firecracker_body c asset src wt ht li ri thr img p = Ok img' →
  rect h w img'.
Proof.
  intros Hi. unfold firecracker_body.
  intros (pm & Hpm & (pm' & Hpm' & [= <-])%bind_inv)%bind_inv.
  assert (Hi' : rect h w (composite pm img)).
  { apply composite_sizes; [|done]. intros patch mask ->.
    by eapply firecracker_patch_frame. }
  apply composite_sizes; [|done]. intros patch mask ->.
  by eapply firecracker_patch_frame.
Qed.





Lemma firecracker_frame img poses asset l r thr img' h w :
  rect h w img →
  apply_firecracker_effect c img poses asset l r thr = Ok img' →
  rect h w img'.
Proof.
  intros Hi. unfold apply_firecracker_effect.
  destruct (np.shape asset) as [hm wm]. destruct (np.shape img) as [hi wi].
  intros ([wt ht] & _ & H)%bind_inv. revert H.
  apply (for_each_invariant _ (rect h w)); [|done].
  intros s x s'. apply firecracker_body_frame.
Qed.

End frame.

Lemma ref_sizes : cv_sizes ref.cv2.
Proof.
  split; simpl.
  - intros img xx yy H. by apply sizes_map2.
  - intros P src m w h border. unfold rect, sizes, ref.warp_nearest. simpl.
    rewrite <- list_fmap_compose.
    rewrite (list_fmap_ext _ (λ _, w) (seq 0 h)).
    + by rewrite fmap_const_replicate, length_seq.
    + intros _ i _. simpl. by rewrite length_fmap, length_seq.
  - intros img. apply sizes_fmap.
Qed.



(** ** The confidence gate *)



(** ** Detections one after the other *)

(** The overlays of a list of detections are the overlays of its parts in
    sequence. *)
Lemma sunglasses_fold c img ps1 ps2 asset l r thr :
  apply_sunglasses_effect c img (ps1 ++ ps2) asset l r thr =
    img' ← apply_sunglasses_effect c img ps1 asset l r thr;
    apply_sunglasses_effect c img' ps2 asset l r thr.
Proof.
  unfold apply_sunglasses_effect. destruct (np.shape asset).
  apply for_each_app.
Qed.

Lemma hat_fold c img ps1 ps2 asset l r thr :
  apply_hat_effect c img (ps1 ++ ps2) asset l r thr =
    img' ← apply_hat_effect c img ps1 asset l r thr;
    apply_hat_effect c img' ps2 asset l r thr.
Proof.
  unfold apply_hat_effect. destruct (np.shape asset).
  apply for_each_app.
Qed.

Lemma firecracker_fold c img ps1 ps2 asset l r thr h w :
  cv_sizes c → rect h w img →
  apply_firecracker_effect c img (ps1 ++ ps2) asset l r thr =
    img' ← apply_firecracker_effect c img ps1 asset l r thr;
    apply_firecracker_effect c img' ps2 asset l r thr.
Proof.
  intros Hc Hi.
  destruct (apply_firecracker_effect c img ps1 asset l r thr)
    as [img1|f] eqn:E1.
  - pose proof (firecracker_frame c Hc _ _ _ _ _ _ _ h w Hi E1) as H1.
    rewrite bind_Ok. revert E1. unfold apply_firecracker_effect.
    rewrite <- (rect_shape_eq img img1 h w Hi H1).
    destruct (np.shape asset), (np.shape img).
    destruct (firecracker_size _ _ _) as [[wt ht]|]; [|done].
    rewrite !bind_Ok, for_each_app. by intros ->.
  - revert E1. unfold apply_firecracker_effect.
    destruct (np.shape asset), (np.shape img).
    destruct (firecracker_size _ _ _) as [[wt ht]|]; [|by intros [= <-]].
    rewrite !bind_Ok, for_each_app. by intros ->.
Qed.

(** The bug-eye loop threads its grid as well as its image: in one call on
    two eligible detections the second resampling goes through the grid that
    the first detection left, whereas a call on the second detection alone
    starts from the identity grid of its input. *)
Lemma bugeye_grids (c : cv.CV2) img d1 d2 l r thr kl1 kr1 kl2 kr2 g1 :
  np.index (keypoints d1) l = Ok kl1 → np.index (keypoints d1) r = Ok kr1 →
  Spec.eligible kl1 kr1 thr →
  np.index (keypoints d2) l = Ok kl2 → np.index (keypoints d2) r = Ok kr2 →
  Spec.eligible kl2 kr2 thr →
  for_each (distort k1 epe (bbox d1)) [np.xy kl1; np.xy kr1]
    (np.meshgrid (np.arange (np.shape img).2) (np.arange (np.shape img).1))
    = Ok g1 →
  apply_bugeye_effect c img [d1] l r thr = Ok (cv.remap c img g1.1 g1.2) ∧
  apply_bugeye_effect c img [d1; d2] l r thr =
    (g12 ← for_each (distort k1 epe (bbox d2)) [np.xy kl2; np.xy kr2] g1;
     Ok (cv.remap c (cv.remap c img g1.1 g1.2) g12.1 g12.2)) ∧
  apply_bugeye_effect c (cv.remap c img g1.1 g1.2) [d2] l r thr =
    (g2 ← for_each (distort k1 epe (bbox d2)) [np.xy kl2; np.xy kr2]
            (np.meshgrid
               (np.arange (np.shape (cv.remap c img g1.1 g1.2)).2)
               (np.arange (np.shape (cv.remap c img g1.1 g1.2)).1));
     Ok (cv.remap c (cv.remap c img g1.1 g1.2) g2.1 g2.2)).
Proof.
  intros Hl1 Hr1 He1 Hl2 Hr2 He2 Hg1.
  assert (B1 : ∀ st, bugeye_body c l r thr st d1 =
            (g ← for_each (distort k1 epe (bbox d1)) [np.xy kl1; np.xy kr1] st.1;
             Ok (g, cv.remap c st.2 g.1 g.2))).
  { intros st. unfold bugeye_body.
    by rewrite (eye_gate_pass _ _ _ _ _ _ Hl1 Hr1 He1). }
  assert (B2 : ∀ st, bugeye_body c l r thr st d2 =
            (g ← for_each (distort k1 epe (bbox d2)) [np.xy kl2; np.xy kr2] st.1;
             Ok (g, cv.remap c st.2 g.1 g.2))).
  { intros st. unfold bugeye_body.
    by rewrite (eye_gate_pass _ _ _ _ _ _ Hl2 Hr2 He2). }
  unfold apply_bugeye_effect.
  rewrite (for_each_two (bugeye_body c l r thr)).
  rewrite !(for_each_one (bugeye_body c l r thr)).
  rewrite !B1, !B2. cbn [fst snd]. rewrite Hg1, !bind_Ok.
  rewrite B2. cbn [fst snd].
  split; [done|]. split.
  - by destruct (for_each (distort k1 epe (bbox d2)) [np.xy kl2; np.xy kr2] g1).
  - by destruct (for_each (distort k1 epe (bbox d2)) [np.xy kl2; np.xy kr2] _).
Qed.

(** *** The bug-eye step depends on the grid through its values only *)

Lemma agree_bind {A B} (R : A → A → Prop) (R' : B → B → Prop)
    (m m' : outcome A) (f f' : A → outcome B) :
  agree R m m' → (∀ a a', R a a' → agree R' (f a) (f' a')) →
  agree R' (m ≫= f) (m' ≫= f').
Proof.
  destruct m as [a|e], m' as [a'|e']; simpl; try done.
  intros H Hf. by apply Hf.
Qed.

Lemma agree_refl {A} (R : A → A → Prop) (o : outcome A) :
  (∀ a, R a a) → agree R o o.
Proof. intros H. destruct o; simpl; auto. Qed.

Lemma np_div_agree a a' b b' :
  a == a' → b == b' → agree Qeq (np_div a b) (np_div a' b').
Proof.
  intros Ha Hb. unfold np_div.
  destruct (Qeq_bool b 0) eqn:E, (Qeq_bool b' 0) eqn:E'; simpl.
  - done.
  - apply Qeq_bool_iff in E. rewrite Hb in E. apply Qeq_bool_iff in E.
    congruence.
  - apply Qeq_bool_iff in E'. rewrite <- Hb in E'. apply Qeq_bool_iff in E'.
    congruence.
  - by rewrite Ha, Hb.
Qed.

Lemma distort_at_agree k e s xc yc x x' y y' :
  x == x' → y == y' →
  agree veq (distort_at k e s xc yc x y) (distort_at k e s xc yc x' y').
Proof.
  intros Hx Hy. unfold distort_at.
  eapply agree_bind; [apply np_div_agree; [by rewrite Hx, Hy | done]|].
  intros r r' Hr.
  eapply agree_bind; [by apply np_div_agree|]. intros q q' Hq.
  eapply agree_bind; [apply np_div_agree; [by rewrite Hx | by rewrite Hq]|].
  intros u u' Hu.
  eapply agree_bind; [by apply np_div_agree|]. intros t t' Ht.
  eapply agree_bind; [apply np_div_agree; [by rewrite Hy | by rewrite Ht]|].
  intros v v' Hv. simpl. split; simpl; [by rewrite Hu | by rewrite Hv].
Qed.

Lemma traverse_agree {A B} (R : A → A → Prop) (R' : B → B → Prop)
    (f : A → outcome B) l l' :
  (∀ a a', R a a' → agree R' (f a) (f a')) →
  Forall2 R l l' →
  agree (Forall2 R') (np.traverse f l) (np.traverse f l').
Proof.
  intros Hf. induction 1 as [|a a' l l' Ha Hl IH]; simpl; [constructor|].
  eapply agree_bind; [by apply Hf|]. intros b b' Hb.
  eapply agree_bind; [exact IH|]. intros bs bs' Hbs. simpl. by constructor.
Qed.

Lemma zip_pair_eq (a a' b b' : list Q) :
  Forall2 Qeq a a' → Forall2 Qeq b b' →
  Forall2 veq (zip_with pair a b) (zip_with pair a' b').
Proof.
  intros Ha. revert b b'. induction Ha as [|x x' a a' Hx Ha IH];
    intros b b' Hb; [constructor|].
  destruct Hb as [|y y' b b' Hy Hb]; simpl; [constructor|].
  constructor; [done|]. by apply IH.
Qed.

Lemma map2_pair_eq (a a' b b' : array2 Q) :
  grid_eq a a' → grid_eq b b' →
  Forall2 (Forall2 veq) (np.map2 pair a b) (np.map2 pair a' b').
Proof.
  unfold np.map2. intros Ha. revert b b'.
  induction Ha as [|r r' a a' Hr Ha IH]; intros b b' Hb; [constructor|].
  destruct Hb as [|s s' b b' Hs Hb]; simpl; [constructor|].
  constructor; [by apply zip_pair_eq|]. by apply IH.
Qed.

Lemma unzip_eq (l l' : array2 (Q * Q)) :
  Forall2 (Forall2 veq) l l' →
  grids_eq (fmap (M := list) (fmap (M := list) fst) l,
            fmap (M := list) (fmap (M := list) snd) l)
           (fmap (M := list) (fmap (M := list) fst) l',
            fmap (M := list) (fmap (M := list) snd) l').
Proof.
  unfold grids_eq, grid_eq. intros H. split; simpl.
  - apply Forall2_fmap. eapply Forall2_impl; [exact H|].
    intros r r' Hr. apply Forall2_fmap. eapply Forall2_impl; [exact Hr|].
    by intros p p' [H1 _].
  - apply Forall2_fmap. eapply Forall2_impl; [exact H|].
    intros r r' Hr. apply Forall2_fmap. eapply Forall2_impl; [exact Hr|].
    by intros p p' [_ H2].
Qed.

Lemma distort_agree k e bbox g g' c :
  grids_eq g g' →
  agree grids_eq (distort k e bbox g c) (distort k e bbox g' c).
Proof.
  intros [H1 H2]. unfold distort.
  do 4 (eapply agree_bind; [by apply (agree_refl eq)|]; intros ? ? <-).
  eapply agree_bind.
  - unfold np.broadcast2.
    apply (traverse_agree (Forall2 veq) (Forall2 veq));
      [|by apply map2_pair_eq].
    intros r r' Hr. apply (traverse_agree veq veq); [|done].
    intros p p' [Hp1 Hp2]. by apply distort_at_agree.
  - intros m m' Hm. by apply unzip_eq.
Qed.

Lemma nearest_eq x x' : x == x' → ref.nearest x = ref.nearest x'.
Proof. intros H. unfold ref.nearest. by rewrite H. Qed.

Lemma remap_nearest_eq img xx xx' yy yy' :
  grid_eq xx xx' → grid_eq yy yy' →
  ref.remap_nearest img xx yy = ref.remap_nearest img xx' yy'.
Proof.
  unfold ref.remap_nearest, np.map2. intros Hx. revert yy yy'.
  induction Hx as [|r r' a a' Hr Ha IH]; intros yy yy' Hy; [done|].
  destruct Hy as [|s s' b b' Hs Hb]; simpl; [done|].
  f_equal; [|by apply IH].
  clear -Hr Hs. revert s s' Hs.
  induction Hr as [|x x' r r' Hx Hr IH]; intros s s' Hs; [done|].
  destruct Hs as [|y y' s s' Hy Hs]; simpl; [done|].
  f_equal; [|by apply IH].
  unfold ref.sample_replicate.
  by rewrite (nearest_eq _ _ Hx), (nearest_eq _ _ Hy).
Qed.

Lemma bugeye_body_agree l r thr g g' img p :
  grids_eq g g' →
  agree (λ st st' : bugeye_state, grids_eq st.1 st'.1 ∧ st.2 = st'.2)
    (bugeye_body ref.cv2 l r thr (g, img) p)
    (bugeye_body ref.cv2 l r thr (g', img) p).
Proof.
  intros Hg. unfold bugeye_body.
  eapply agree_bind; [by apply (agree_refl eq)|]. intros e ? <-.
  destruct e as [[kl kr]|]; [|done].
  eapply agree_bind.
  - cbn [for_each fst].
    eapply agree_bind; [by apply distort_agree|]. intros g1 g1' Hg1.
    eapply agree_bind; [by apply distort_agree|]. intros g2 g2' Hg2.
    exact Hg2.
  - intros h h' [Hh1 Hh2]. simpl. split; [done|].
    by apply remap_nearest_eq.
Qed.

Lemma Qred_grid (g : array2 Q) :
  grid_eq g (fmap (M := list) (fmap (M := list) Qred) g).
Proof.
  unfold grid_eq. apply Forall2_fmap_r, Forall_Forall2_diag, Forall_forall.
  intros r _. apply Forall2_fmap_r, Forall_Forall2_diag, Forall_forall.
  intros q _. symmetry. apply Qred_correct.
Qed.

(** A step may be run on the grid in lowest terms. *)
Lemma bugeye_body_reduced l r thr g img p g' img' :
  bugeye_body ref.cv2 l r thr (reduced g, img) p = Ok (g', img') →
  ∃ g'', bugeye_body ref.cv2 l r thr (g, img) p = Ok (g'', img').
Proof.
  intros E.
  pose proof (bugeye_body_agree l r thr g (reduced g) img p
                (conj (Qred_grid g.1) (Qred_grid g.2))) as H.
  rewrite E in H.
  destruct (bugeye_body ref.cv2 l r thr (g, img) p) as [[g2 i2]|]; [|done].
  destruct H as [_ H]. simpl in H. subst i2. by exists g2.
Qed.

(** Instantiate the grid of a step by running it. *)
Ltac run_step :=
  match goal with
  | |- ex (λ _, ?lhs = _ ∧ _) =>
      let v := eval vm_compute in lhs in
      match v with Ok (?g, _) => exists g end
  | |- ex (λ _, ?lhs = _) =>
      let v := eval vm_compute in lhs in
      match v with Ok (?g, _) => exists g end
  end.

(** The two turns of the loop on [sample.row]: the second starts from the
    grid the first one left. *)
Lemma bugeye_two_steps :
  ∃ g1,
    bugeye_body ref.cv2 0 1 (1 # 2)
      (np.meshgrid (np.arange (np.shape sample.row).2)
         (np.arange (np.shape sample.row).1), sample.row) sample.first
      = Ok (g1, [[sample.grey 20; sample.grey 20; sample.grey 20;
                  sample.grey 30]]) ∧
    ∃ g2,
      bugeye_body ref.cv2 0 1 (1 # 2)
        (reduced g1, [[sample.grey 20; sample.grey 20; sample.grey 20;
                       sample.grey 30]])
        sample.second
        = Ok (g2, [[sample.grey 20; sample.grey 20; sample.grey 20;
                    sample.grey 30]]).
Proof.
  run_step. split; [vm_compute; reflexivity|].
  run_step. vm_compute; reflexivity.
Qed.

(** C2 at a failing input. On the row [10 20 30 40] with two people side by
    side, one call on both detections returns [20 20 20 30], whereas one call
    per detection, the first result feeding the second, returns
    [20 20 30 30]: the grids [xx], [yy] are built once before the loop, so
    the second detection is resampled through a grid already bent around the
    first. *)
Theorem bugeye_grid_carried_over :
  apply_bugeye_effect ref.cv2 sample.row [sample.first; sample.second]
    0 1 (1 # 2)
    = Ok [[sample.grey 20; sample.grey 20; sample.grey 20; sample.grey 30]] ∧
  (img1 ← apply_bugeye_effect ref.cv2 sample.row [sample.first] 0 1 (1 # 2);
   apply_bugeye_effect ref.cv2 img1 [sample.second] 0 1 (1 # 2))
    = Ok [[sample.grey 20; sample.grey 20; sample.grey 30; sample.grey 30]].
Proof.
  split; [|vm_compute; reflexivity].
  destruct bugeye_two_steps as (g1 & E1 & g2 & E2).
  unfold apply_bugeye_effect. cbn [for_each].
  rewrite E1, bind_Ok.
  destruct (bugeye_body_reduced _ _ _ _ _ _ _ _ E2) as [g2' ->].
  reflexivity.
Qed.

(** ** The masked copy, pixel by pixel *)

Lemma masked_copy_at {P} (src : array2 P) mask dst i j p m d :
  at2 src i j = Some p → at2 mask i j = Some m → at2 dst i j = Some d →
  at2 (cv.masked_copy src mask dst) i j = Some (if (m =? 0)%Z then d else p).
Proof.
  intros Hp Hm Hd. unfold cv.masked_copy.
  rewrite (at2_map2 _ _ _ _ _ (p, m) d); [done| |done].
  by apply at2_map2.
Qed.

Section masks.
Context (c : cv.CV2) (Hc : cv_sizes c).
Context (h w : nat) (img : image) (Hi : rect h w img).



End masks.



(** ** Anchor geometry *)




(** C6. For an eligible detection the sunglasses are warped onto
    [right_eye + vo, right_eye - vo, left_eye + vo, left_eye - vo] and the hat
    onto [right_eye + veye + 5 vo, right_eye + veye + vo,
    left_eye - veye + 5 vo, left_eye - veye + vo], where [veye] is half the
    eye-to-eye vector and [vo] is [veye] turned by a right angle (orthogonal
    to the eye line, of the same length); both use the source anchors at
    30% and 70% of the asset's width and height, handed to the homography in
    the same order as the targets. *)
Theorem anchor_geometry (c : cv.CV2) :
  (∀ leye reye,
     Forall2 veq (sunglasses_tar leye reye) (Spec.sunglasses_targets leye reye) ∧
     Forall2 veq (hat_tar leye reye) (Spec.hat_targets leye reye) ∧
     Spec.inner (Spec.vo leye reye) (Spec.minus reye leye) == 0 ∧
     Spec.inner (Spec.vo leye reye) (Spec.vo leye reye)
       == Spec.inner (Spec.veye leye reye) (Spec.veye leye reye)) ∧
  (∀ hm wm,
     Forall2 veq (anchors_src (3 # 10) (7 # 10) hm wm)
       (Spec.source_anchors (Qnat wm) (Qnat hm))) ∧
  (∀ img pose_results asset l r thr,
     apply_sunglasses_effect c img pose_results asset l r thr =
       for_each (sunglasses_body c asset
                   (anchors_src (3 # 10) (7 # 10)
                      (np.shape asset).1 (np.shape asset).2) l r thr)
         pose_results img) ∧
  (∀ img pose_results asset l r thr,
     apply_hat_effect c img pose_results asset l r thr =
       for_each (hat_body c asset
                   (anchors_src (3 # 10) (7 # 10)
                      (np.shape asset).1 (np.shape asset).2) l r thr)
         pose_results img) ∧
  (∀ asset src l r thr img p kl kr,
     np.index (keypoints p) l = Ok kl → np.index (keypoints p) r = Ok kr →
     Spec.eligible kl kr thr →
     let tar := sunglasses_tar (np.xy kl) (np.xy kr) in
     let patch := cv.warpPerspective c asset (cv.findHomography c src tar)
                    ((np.shape img).2, (np.shape img).1) cv.white in
     let mask := np.astype_uint8
                   (np.lt_scalar (cv.cvtColor_BGR2GRAY c patch) 200) in
     sunglasses_body c asset src l r thr img p
       = Ok (cv.copyTo patch mask img)) ∧
  (∀ asset src l r thr img p kl kr,
     np.index (keypoints p) l = Ok kl → np.index (keypoints p) r = Ok kr →
     Spec.eligible kl kr thr →
     let tar := hat_tar (np.xy kl) (np.xy kr) in
     hat_body c asset src l r thr img p
       = Ok (composite (Some (alpha_patch c asset src tar (np.shape img))) img) ∧
     (alpha_patch c asset src tar (np.shape img)).1
       = fmap (M := list) (fmap (M := list) color)
           (cv.warpPerspective c asset (cv.findHomography c src tar)
              ((np.shape img).2, (np.shape img).1) (BGRA cv.white 0))).
Proof.
  split; [|split; [|split; [|split; [|split]]]].
  - intros [lx ly] [rx ry].
    unfold sunglasses_tar, hat_tar, Spec.sunglasses_targets, Spec.hat_targets,
      Spec.vo, Spec.veye, Spec.rot90, Spec.half, Spec.minus, Spec.plus,
      Spec.times, Spec.inner, np.add, np.sub, np.mul, np.smul, np.rev, veq.
    simpl. split; [|split; [|split]].
    + repeat constructor; simpl; field.
    + repeat constructor; simpl; field.
    + field.
    + field.
  - intros hm wm. unfold anchors_src, Spec.source_anchors, veq.
    repeat constructor; simpl; field.
  - intros. unfold apply_sunglasses_effect. by destruct (np.shape asset).
  - intros. unfold apply_hat_effect. by destruct (np.shape asset).
  - intros asset src l r thr img p kl kr Hl Hr He tar patch mask.
    unfold sunglasses_body, sunglasses_patch.
    by rewrite (eye_gate_pass _ _ _ _ _ _ Hl Hr He).
  - intros asset src l r thr img p kl kr Hl Hr He tar. split; [|done].
    unfold hat_body, hat_patch.
    by rewrite (eye_gate_pass _ _ _ _ _ _ Hl Hr He).
Qed.

(** ** The homography of four point pairs *)

Import homography.

Lemma mulv_mmul (a b : mat3) (v : vec3) :
  veq3 (mulv (mmul a b) v) (mulv a (mulv b v)).
Proof.
  destruct a as [[[[a1 a2] a3] [[b1 b2] b3]] [[c1 c2] c3]].
  destruct b as [[[[d1 d2] d3] [[e1 e2] e3]] [[f1 f2] f3]].
  destruct v as [[x y] z].
  unfold veq3, mulv, mmul, dot3, col. simpl. split; [|split]; ring.
Qed.

Lemma mulv_veq3 (a : mat3) (u v : vec3) :
  veq3 u v → veq3 (mulv a u) (mulv a v).
Proof.
  destruct u as [[x y] z], v as [[x' y'] z'].
  unfold veq3, mulv, dot3. simpl. intros (-> & -> & ->). done.
Qed.

Lemma veq3_trans (u v w : vec3) : veq3 u v → veq3 v w → veq3 u w.
Proof.
  unfold veq3. intros (-> & -> & ->) (-> & -> & ->). done.
Qed.

(** The adjugate of a frame sends its points back to the unit vectors. *)
Lemma adj_basis p1 p2 p3 p4 :
  let a := adj (basis p1 p2 p3 p4) in
  let l1 := orient p4 p2 p3 in
  let l2 := orient p1 p4 p3 in
  let l3 := orient p1 p2 p4 in
  let d := orient p1 p2 p3 in
  veq3 (mulv a (p1.1, p1.2, 1)) (l2 * l3 * d, 0, 0) ∧
  veq3 (mulv a (p2.1, p2.2, 1)) (0, l1 * l3 * d, 0) ∧
  veq3 (mulv a (p3.1, p3.2, 1)) (0, 0, l1 * l2 * d) ∧
  veq3 (mulv a (p4.1, p4.2, 1)) (l1 * l2 * l3, l1 * l2 * l3, l1 * l2 * l3).
Proof.
  destruct p1 as [x1 y1], p2 as [x2 y2], p3 as [x3 y3], p4 as [x4 y4].
  unfold veq3, mulv, adj, basis, orient, dot3. simpl.
  split; [|split; [|split]]; (split; [|split]); ring.
Qed.

(** A frame sends the unit vectors and their sum to its four points. *)
Lemma basis_units q1 q2 q3 q4 k :
  let b := basis q1 q2 q3 q4 in
  veq3 (mulv b (k, 0, 0)) (hom (k * orient q4 q2 q3) q1) ∧
  veq3 (mulv b (0, k, 0)) (hom (k * orient q1 q4 q3) q2) ∧
  veq3 (mulv b (0, 0, k)) (hom (k * orient q1 q2 q4) q3) ∧
  veq3 (mulv b (k, k, k)) (hom (k * orient q1 q2 q3) q4).
Proof.
  destruct q1 as [u1 v1], q2 as [u2 v2], q3 as [u3 v3], q4 as [u4 v4].
  unfold veq3, hom, mulv, basis, orient, dot3. simpl.
  split; [|split; [|split]]; (split; [|split]); ring.
Qed.

Lemma frame_maps p1 p2 p3 p4 q1 q2 q3 q4 :
  let m := mmul (basis q1 q2 q3 q4) (adj (basis p1 p2 p3 p4)) in
  let l1 := orient p4 p2 p3 in
  let l2 := orient p1 p4 p3 in
  let l3 := orient p1 p2 p4 in
  let d := orient p1 p2 p3 in
  veq3 (mulv m (p1.1, p1.2, 1))
       (hom (l2 * l3 * d * orient q4 q2 q3) q1) ∧
  veq3 (mulv m (p2.1, p2.2, 1))
       (hom (l1 * l3 * d * orient q1 q4 q3) q2) ∧
  veq3 (mulv m (p3.1, p3.2, 1))
       (hom (l1 * l2 * d * orient q1 q2 q4) q3) ∧
  veq3 (mulv m (p4.1, p4.2, 1))
       (hom (l1 * l2 * l3 * orient q1 q2 q3) q4).
Proof.
  intros m l1 l2 l3 d.
  destruct (adj_basis p1 p2 p3 p4) as (A1 & A2 & A3 & A4).
  fold l1 l2 l3 d in A1, A2, A3, A4.
  destruct (basis_units q1 q2 q3 q4 (l2 * l3 * d)) as (B1 & _).
  destruct (basis_units q1 q2 q3 q4 (l1 * l3 * d)) as (_ & B2 & _).
  destruct (basis_units q1 q2 q3 q4 (l1 * l2 * d)) as (_ & _ & B3 & _).
  destruct (basis_units q1 q2 q3 q4 (l1 * l2 * l3)) as (_ & _ & _ & B4).
  split; [|split; [|split]];
    (eapply veq3_trans; [apply mulv_mmul|];
     eapply veq3_trans; [apply mulv_veq3; eassumption|]; assumption).
Qed.

Lemma perspective_hom m p k q :
  ¬ k == 0 → veq3 (mulv m (p.1, p.2, 1)) (hom k q) →
  ∃ t, perspective m p = Some t ∧ veq t q.
Proof.
  intros Hk. unfold perspective, veq3, hom.
  destruct (mulv m (p.1, p.2, 1)) as [[x y] w]. simpl.
  intros (Hx & Hy & Hw).
  destruct (Qeq_bool w 0) eqn:E.
  { apply Qeq_bool_iff in E. rewrite Hw in E. contradiction. }
  eexists. split; [reflexivity|]. unfold veq. simpl.
  assert (¬ w == 0) by (by rewrite Hw).
  split; [rewrite Hx | rewrite Hy]; rewrite <- Hw; field; done.
Qed.

(** C7. For four source and four target points, no three of either set on a
    line, the homography computed from the correspondence maps each source
    point onto its target point, exactly. *)
Theorem homography_round_trip (pts_src pts_tar : list vec2) :
  general_position pts_src → general_position pts_tar →
  ∃ m, findHomography_exact pts_src pts_tar = Some m ∧
       Forall2 (λ p q, ∃ t, perspective m p = Some t ∧ veq t q)
         pts_src pts_tar.
Proof.
  destruct pts_src as [|p1 [|p2 [|p3 [|p4 [|]]]]]; try done.
  destruct pts_tar as [|q1 [|q2 [|q3 [|q4 [|]]]]]; try done.
  intros (Hd & H1 & H2 & H3) (Hd' & H1' & H2' & H3').
  eexists. split; [reflexivity|].
  destruct (frame_maps p1 p2 p3 p4 q1 q2 q3 q4) as (E1 & E2 & E3 & E4).
  repeat constructor.
  - eapply perspective_hom; [|exact E1]. auto using Qmult_nonzero.
  - eapply perspective_hom; [|exact E2]. auto using Qmult_nonzero.
  - eapply perspective_hom; [|exact E3]. auto using Qmult_nonzero.
  - eapply perspective_hom; [|exact E4]. auto using Qmult_nonzero.
Qed.

Lemma homography_round_trip_witness :
  general_position (anchors_src (3 # 10) (7 # 10) 10 20) ∧
  general_position (sunglasses_tar (4, 5) (8, 5)) ∧
  ∃ m, findHomography_exact (anchors_src (3 # 10) (7 # 10) 10 20)
         (sunglasses_tar (4, 5) (8, 5)) = Some m ∧
       Forall2 (λ p q, ∃ t, perspective m p = Some t ∧ veq t q)
         (anchors_src (3 # 10) (7 # 10) 10 20)
         (sunglasses_tar (4, 5) (8, 5)).
Proof.
  assert (H1 : general_position (anchors_src (3 # 10) (7 # 10) 10 20))
    by (vm_compute; split; [|split; [|split]]; discriminate).
  assert (H2 : general_position (sunglasses_tar (4, 5) (8, 5)))
    by (vm_compute; split; [|split; [|split]]; discriminate).
  split; [exact H1|]. split; [exact H2|].
  exact (homography_round_trip _ _ H1 H2).
Defined.

(** ** Buffers *)

Lemma store_read (σ : gmap positive image) l im :
  σ !! l = Some im → store.read σ l = im.
Proof. unfold store.read. by intros ->. Qed.

Lemma composite_buf_in_place pm (l : positive) (σ : gmap positive image) im s :
  σ !! l = Some im → sizes im = s →
  (∀ patch mask, pm = Some (patch, mask) → sizes patch = s ∧ sizes mask = s) →
  store.composite_buf pm (l, σ) = (l, <[l := composite pm im]> σ).
Proof.
  intros Hl Hs Hpm. destruct pm as [[patch mask]|]; simpl.
  - destruct (Hpm _ _ eq_refl) as [H1 H2].
    unfold store.copyTo_buf, store.read. simpl. rewrite Hl. simpl.
    assert (cv.same_size patch im = true) as ->
      by (apply same_size_sizes; congruence).
    by rewrite (proj1 (copyTo_sizes patch mask im s H1 H2 Hs)).
  - by rewrite insert_id.
Qed.

(** A loop whose every turn overwrites the buffer at [l] computes, in that
    buffer, what the loop on values computes. *)
Lemma for_each_in_place {X}
    (body_buf : positive * gmap positive image → X
                → outcome (positive * gmap positive image))
    (body : image → X → outcome image) (l : positive) (P : image → Prop) xs :
  (∀ im x (σ : gmap positive image), P im → σ !! l = Some im →
     body_buf (l, σ) x = (im' ← body im x; Ok (l, <[l := im']> σ))) →
  (∀ im x im', P im → body im x = Ok im' → P im') →
  ∀ im (σ : gmap positive image), P im → σ !! l = Some im →
    for_each body_buf xs (l, σ)
      = (im' ← for_each body xs im; Ok (l, <[l := im']> σ)).
Proof.
  intros Hstep Hinv. induction xs as [|x xs IH]; intros im σ HP Hl; simpl.
  - by rewrite insert_id.
  - rewrite (Hstep im x σ HP Hl).
    destruct (body im x) as [im1|] eqn:E; [|done]. rewrite !bind_Ok.
    rewrite (IH im1 (<[l := im1]> σ));
      [|by eapply Hinv|by rewrite lookup_insert_eq].
    destruct (for_each body xs im1); [|done]. rewrite !bind_Ok.
    by rewrite insert_insert_eq.
Qed.

Section buffers.
Context (c : cv.CV2) (Hc : cv_sizes c).
Context (h w : nat) (im : image) (Hi : rect h w im).
Context (σ : gmap positive image) (img : positive) (Hl : σ !! img = Some im).

Lemma sunglasses_in_place asset l r thr poses :
  store.apply_sunglasses_effect_buf c img poses asset l r thr σ =
    (im' ← apply_sunglasses_effect c im poses asset l r thr;
     Ok (img, <[img := im']> σ)).
Proof.
  unfold store.apply_sunglasses_effect_buf, apply_sunglasses_effect.
  destruct (np.shape asset) as [hm wm].
  apply (for_each_in_place _ _ _ (rect h w)); [| |done|done].
  - intros im0 p σ0 Hi0 Hl0.
    unfold store.sunglasses_body_buf, sunglasses_body. simpl.
    rewrite (store_read _ _ _ Hl0).
    destruct (sunglasses_patch _ _ _ _ _ _ _ _) as [pm|] eqn:E; [|done].
    rewrite !bind_Ok. f_equal.
    apply (composite_buf_in_place _ _ _ _ (replicate h w)); [done|done|].
    intros patch mask ->. by eapply sunglasses_patch_frame.
  - intros im0 p im1 Hi0. by apply sunglasses_body_frame.
Qed.


Lemma hat_on_copy asset l r thr poses :
  let l1 := fresh (dom σ) in
  let l2 := fresh (dom (<[l1 := im]> σ)) in
  store.apply_hat_effect_buf c img poses asset l r thr σ =
    (im' ← apply_hat_effect c im poses asset l r thr;
     Ok (l2, <[l2 := im']> (<[l2 := im]> (<[l1 := im]> σ)))).
Proof.
  intros l1 l2.
  unfold store.apply_hat_effect_buf, apply_hat_effect, store.copy, store.alloc.
  rewrite (store_read _ _ _ Hl). fold l1.
  unfold store.read at 1. rewrite lookup_insert_eq. simpl. fold l2.
  destruct (np.shape asset) as [hm wm].
  apply (for_each_in_place _ _ _ (rect h w));
    [| |done|by rewrite lookup_insert_eq].
  - intros im0 p σ0 Hi0 Hl0. unfold store.hat_body_buf, hat_body. simpl.
    rewrite (store_read _ _ _ Hl0).
    destruct (hat_patch _ _ _ _ _ _ _ _) as [pm|] eqn:E; [|done].
    rewrite !bind_Ok. f_equal.
    apply (composite_buf_in_place _ _ _ _ (replicate h w)); [done|done|].
    intros patch mask ->. by eapply hat_patch_frame.
  - intros im0 p im1 Hi0. by apply hat_body_frame.
Qed.

End buffers.



(** * Further properties

    Behaviour of the four effects beyond the statements above: errors and
    edge cases, the shape of the distortion, the geometry of the overlays,
    buffers and exceptions, and the order of detections. *)

(** ** Loops that change nothing, indices out of range *)

Lemma for_each_noop {S X} (body : S → X → outcome S) xs s :
  Forall (λ x, body s x = Ok s) xs → for_each body xs s = Ok s.
Proof.
  induction 1 as [|x xs Hx _ IH]; [done|]. simpl. by rewrite Hx, bind_Ok.
Qed.

Lemma index_out_of_range {A} (a : list A) (i : Z) :
  (i < - Z.of_nat (length a) ∨ Z.of_nat (length a) <= i)%Z →
  np.index a i = Fault IndexError.
Proof.
  intros H. unfold np.index.
  destruct (Z.ltb_spec i 0);
    [destruct (Z.leb_spec 0 (i + Z.of_nat (length a))); [lia | done]|].
  destruct (Z.leb_spec 0 i); [|lia].
  destruct (Z.ltb_spec i (Z.of_nat (length a))); [lia | done].
Qed.

Lemma index_in_range {A} (a : list A) (i : Z) :
  (- Z.of_nat (length a) <= i < Z.of_nat (length a))%Z →
  ∃ x, np.index a i = Ok x.
Proof.
  intros H. unfold np.index.
  set (k := if (i <? 0)%Z then (i + Z.of_nat (length a))%Z else i).
  assert (Hk : (0 <= k < Z.of_nat (length a))%Z).
  { unfold k. destruct (Z.ltb_spec i 0); lia. }
  destruct (Z.leb_spec 0 k); [|lia].
  destruct (Z.ltb_spec k (Z.of_nat (length a))); [|lia]. simpl.
  destruct (lookup_lt_is_Some_2 a (Z.to_nat k)) as [x ->]; [lia|]. by exists x.
Qed.

Lemma eye_gate_left_fault kpts l r thr f :
  np.index kpts l = Fault f → eye_gate kpts l r thr = Fault f.
Proof. intros H. unfold eye_gate. by rewrite H. Qed.

Lemma eye_gate_right_fault kpts l r thr kl f :
  np.index kpts l = Ok kl → np.index kpts r = Fault f →
  eye_gate kpts l r thr = if Qltb (score kl) thr then Ok None else Fault f.
Proof.
  intros Hl Hr. unfold eye_gate. rewrite Hl, bind_Ok.
  destruct (Qltb (score kl) thr); [done|]. by rewrite Hr.
Qed.

(** X1. With no detection passing the gate the three eye effects hand the
    scene back as it is; the bug-eye does not resample it. *)
Theorem ineligible_detections_leave_scene (c : cv.CV2) (img : image)
    (pose_results : list pose) (l r : Z) (thr : Q) :
  Forall (λ p, ∃ kl, np.index (keypoints p) l = Ok kl ∧
            (score kl < thr ∨
             ∃ kr, np.index (keypoints p) r = Ok kr ∧ score kr < thr))
    pose_results →
  apply_bugeye_effect c img pose_results l r thr = Ok img ∧
  (∀ asset, apply_sunglasses_effect c img pose_results asset l r thr = Ok img) ∧
  (∀ asset, apply_hat_effect c img pose_results asset l r thr = Ok img).
Proof.
  intros H.
  assert (Hg : Forall (λ p, eye_gate (keypoints p) l r thr = Ok None)
                 pose_results).
  { eapply Forall_impl; [exact H|]. intros p (kl & Hl & Hlow).
    by eapply eye_gate_low. }
  split; [|split].
  - unfold apply_bugeye_effect. rewrite for_each_noop; [done|].
    eapply Forall_impl; [exact Hg|]. intros p Hp.
    unfold bugeye_body. by rewrite Hp.
  - intros asset. unfold apply_sunglasses_effect. destruct (np.shape asset).
    apply for_each_noop. eapply Forall_impl; [exact Hg|]. intros p Hp.
    unfold sunglasses_body, sunglasses_patch. by rewrite Hp.
  - intros asset. unfold apply_hat_effect. destruct (np.shape asset).
    apply for_each_noop. eapply Forall_impl; [exact Hg|]. intros p Hp.
    unfold hat_body, hat_patch. by rewrite Hp.
Qed.

Lemma ineligible_detections_leave_scene_witness :
  apply_bugeye_effect ref.cv2 sample.scene
    [sample.person (3 # 10); Pose [] [Keypoint 0 0 0]] 0 1 (1 # 2)
    = Ok sample.scene.
Proof.
  refine (proj1 (ineligible_detections_leave_scene ref.cv2 sample.scene
    [sample.person (3 # 10); Pose [] [Keypoint 0 0 0]] 0 1 (1 # 2) _)).
  repeat constructor.
  - exists (Keypoint 0 1 (9 # 10)). split; [reflexivity|]. right.
    exists (Keypoint 1 1 (3 # 10)). split; reflexivity.
  - exists (Keypoint 0 0 0). split; [reflexivity|]. left. reflexivity.
Defined.

Lemma for_each_total {S X} (body : S → X → outcome S) xs :
  Forall (λ x, ∀ s, ∃ s', body s x = Ok s') xs →
  ∀ s, ∃ s', for_each body xs s = Ok s'.
Proof.
  induction 1 as [|x xs Hx _ IH]; intros s; simpl; [by exists s|].
  destruct (Hx s) as [s1 ->]. rewrite bind_Ok. apply IH.
Qed.

Lemma for_each_head_fault {S X} (body : S → X → outcome S) x xs s f :
  body s x = Fault f → for_each body (x :: xs) s = Fault f.
Proof. intros H. simpl. by rewrite H. Qed.

(** X2. A keypoint index outside [-K, K) raises IndexError as soon as it is
    looked up: the left-eye index always, the right-eye index when the left
    eye has passed the threshold. *)
Theorem eye_index_out_of_range (c : cv.CV2) (img : image) (p : pose)
    (ps : list pose) (l r : Z) (thr : Q) :
  let K := Z.of_nat (length (keypoints p)) in
  (l < - K ∨ K <= l)%Z ∨
  (∃ kl, np.index (keypoints p) l = Ok kl ∧ thr <= score kl ∧
         (r < - K ∨ K <= r)%Z) →
  apply_bugeye_effect c img (p :: ps) l r thr = Fault IndexError ∧
  (∀ asset,
     apply_sunglasses_effect c img (p :: ps) asset l r thr = Fault IndexError) ∧
  (∀ asset,
     apply_hat_effect c img (p :: ps) asset l r thr = Fault IndexError).
Proof.
  intros K H.
  assert (Hg : eye_gate (keypoints p) l r thr = Fault IndexError).
  { destruct H as [Hl|(kl & Hl & Hs & Hr)].
    - apply eye_gate_left_fault. by apply index_out_of_range.
    - rewrite (eye_gate_right_fault _ _ _ _ kl IndexError Hl);
        [|by apply index_out_of_range].
      by apply Qltb_ge in Hs as ->. }
  split; [|split].
  - unfold apply_bugeye_effect.
    rewrite (for_each_head_fault _ _ _ _ IndexError); [done|].
    unfold bugeye_body. by rewrite Hg.
  - intros asset. unfold apply_sunglasses_effect. destruct (np.shape asset).
    apply for_each_head_fault. unfold sunglasses_body, sunglasses_patch.
    by rewrite Hg.
  - intros asset. unfold apply_hat_effect. destruct (np.shape asset).
    apply for_each_head_fault. unfold hat_body, hat_patch. by rewrite Hg.
Qed.

Lemma eye_index_out_of_range_witness :
  apply_bugeye_effect ref.cv2 sample.scene [sample.person 1] 0 2 (1 # 2)
    = Fault IndexError ∧
  apply_bugeye_effect ref.cv2 sample.scene [sample.person 1] (-3) 1 (1 # 2)
    = Fault IndexError.
Proof.
  split.
  - refine (proj1 (eye_index_out_of_range ref.cv2 sample.scene
      (sample.person 1) [] 0 2 (1 # 2) _)).
    right. exists (Keypoint 0 1 (9 # 10)).
    split; [reflexivity|]. split; [discriminate|]. right. simpl. lia.
  - refine (proj1 (eye_index_out_of_range ref.cv2 sample.scene
      (sample.person 1) [] (-3) 1 (1 # 2) _)).
    left. left. simpl. lia.
Defined.

Lemma firecracker_tar_Ok wt ht k : ∃ tar, firecracker_tar wt ht k = Ok tar.
Proof.
  unfold firecracker_tar. rewrite py_div_ok by discriminate. by eexists.
Qed.

Lemma firecracker_patch_total c asset src wt ht idx thr kpts shp :
  (- Z.of_nat (length kpts) <= idx < Z.of_nat (length kpts))%Z →
  ∃ pm, firecracker_patch c asset src wt ht idx thr kpts shp = Ok pm.
Proof.
  intros (k & Hk)%index_in_range. unfold firecracker_patch.
  rewrite Hk, bind_Ok. destruct (Qltb thr (score k)); [|by eexists].
  destruct (firecracker_tar_Ok wt ht (np.xy k)) as [tar ->]. by eexists.
Qed.

Lemma firecracker_size_Ok hm wm h :
  hm ≠ 0%nat →
  firecracker_size hm wm h = Ok (Qnat h / 3 / Qnat hm * Qnat wm, Qnat h / 3).
Proof.
  intros Hm. unfold firecracker_size.
  rewrite py_div_ok, bind_Ok by discriminate.
  by rewrite py_div_ok, bind_Ok by by apply Qnat_nonzero.
Qed.

(** X3. The firecracker looks up both wrists of a detection whatever their
    confidences, so either index out of range raises IndexError; an asset
    without rows raises ZeroDivisionError before any detection is read, even
    when there is none. *)
Theorem firecracker_errors (c : cv.CV2) (img asset : image) (l r : Z) (thr : Q) :
  ((np.shape asset).1 = 0%nat →
     ∀ ps, apply_firecracker_effect c img ps asset l r thr
             = Fault ZeroDivisionError) ∧
  ((np.shape asset).1 ≠ 0%nat →
     apply_firecracker_effect c img [] asset l r thr = Ok img ∧
     ∀ p ps,
       let K := Z.of_nat (length (keypoints p)) in
       (l < - K ∨ K <= l)%Z ∨ (r < - K ∨ K <= r)%Z →
       apply_firecracker_effect c img (p :: ps) asset l r thr
         = Fault IndexError).
Proof.
  unfold apply_firecracker_effect.
  destruct (np.shape asset) as [hm wm], (np.shape img) as [h w]. cbn [fst].
  split.
  - intros -> ps. unfold firecracker_size.
    by rewrite py_div_ok, bind_Ok by discriminate.
  - intros Hm. rewrite (firecracker_size_Ok _ _ _ Hm).
    split; [done|]. intros p ps H. rewrite bind_Ok.
    apply for_each_head_fault. unfold firecracker_body.
    destruct (Z.lt_ge_cases l (- Z.of_nat (length (keypoints p)))) as [|Hl1];
      [unfold firecracker_patch;
       rewrite (index_out_of_range (keypoints p) l) by lia; done|].
    destruct (Z.lt_ge_cases l (Z.of_nat (length (keypoints p)))) as [Hl2|];
      [|unfold firecracker_patch;
        rewrite (index_out_of_range (keypoints p) l) by lia; done].
    destruct (firecracker_patch_total c asset (anchors_src 0 1 hm wm)
                (Qnat h / 3 / Qnat hm * Qnat wm) (Qnat h / 3) l thr
                (keypoints p) (np.shape img)) as [pm ->]; [lia|].
    rewrite bind_Ok. unfold firecracker_patch at 1.
    rewrite (index_out_of_range (keypoints p) r) by lia. done.
Qed.

(** ** No exception on well-formed detections *)

Lemma eye_gate_total kpts l r thr :
  (- Z.of_nat (length kpts) <= l < Z.of_nat (length kpts))%Z →
  (- Z.of_nat (length kpts) <= r < Z.of_nat (length kpts))%Z →
  ∃ e, eye_gate kpts l r thr = Ok e.
Proof.
  intros (kl & Hl)%index_in_range (kr & Hr)%index_in_range.
  rewrite (eye_gate_decide _ _ _ _ _ _ Hl Hr). by eexists.
Qed.

Lemma distort_pair_total bbox x1 y1 x2 y2 rest g a b :
  bbox = x1 :: y1 :: x2 :: y2 :: rest →
  0 < (x2 - x1) ^ 2 + (y2 - y1) ^ 2 →
  ∃ g', for_each (distort k1 epe bbox) [a; b] g = Ok g'.
Proof.
  intros Hb Hs. rewrite for_each_two.
  rewrite (distort_spec _ _ _ _ _ _ _ _ Hb Hs), bind_Ok.
  rewrite (distort_spec _ _ _ _ _ _ _ _ Hb Hs). by eexists.
Qed.

(** X4. On detections whose eye indices are in range and whose bounding box
    has four leading entries and a diagonal that is not zero, the bug-eye
    effect returns: no index is out of range and no element of the grids is
    divided by zero, whatever the image and the keypoint positions. *)
Theorem bugeye_returns (c : cv.CV2) (img : image) (pose_results : list pose)
    (l r : Z) (thr : Q) :
  Forall (λ p,
    let K := Z.of_nat (length (keypoints p)) in
    (- K <= l < K)%Z ∧ (- K <= r < K)%Z ∧
    ∃ x1 y1 x2 y2 rest, bbox p = x1 :: y1 :: x2 :: y2 :: rest ∧
      0 < (x2 - x1) ^ 2 + (y2 - y1) ^ 2) pose_results →
  ∃ img', apply_bugeye_effect c img pose_results l r thr = Ok img'.
Proof.
  intros H. unfold apply_bugeye_effect.
  destruct (for_each_total (bugeye_body c l r thr) pose_results) with
    (s := (np.meshgrid (np.arange (np.shape img).2)
             (np.arange (np.shape img).1), img)) as [st ->]; [|by eexists].
  eapply Forall_impl; [exact H|].
  intros p (Hl & Hr & x1 & y1 & x2 & y2 & rest & Hb & Hs) st.
  unfold bugeye_body.
  destruct (eye_gate_total _ _ _ thr Hl Hr) as [[[kl kr]|] ->];
    rewrite bind_Ok; [|by eexists].
  destruct (distort_pair_total _ _ _ _ _ _ st.1 (np.xy kl) (np.xy kr) Hb Hs)
    as [g ->].
  by eexists.
Qed.

Lemma bugeye_returns_witness :
  ∃ img', apply_bugeye_effect ref.cv2 sample.row
            [sample.first; sample.second] 0 1 (1 # 2) = Ok img'.
Proof.
  apply (bugeye_returns ref.cv2 sample.row [sample.first; sample.second]
           0 1 (1 # 2)).
  repeat constructor; simpl; try lia;
    (exists 0, 0, 24, 32, []; split; reflexivity).
Defined.

(** X5. An eligible detection whose bounding box has fewer than four entries
    makes the bug-eye effect raise IndexError. *)
Theorem bugeye_short_bbox (c : cv.CV2) (img : image) (p : pose)
    (ps : list pose) (l r : Z) (thr : Q) (kl kr : keypoint) :
  np.index (keypoints p) l = Ok kl → np.index (keypoints p) r = Ok kr →
  thr <= score kl → thr <= score kr →
  (length (bbox p) < 4)%nat →
  apply_bugeye_effect c img (p :: ps) l r thr = Fault IndexError.
Proof.
  intros Hl Hr H1 H2 Hb. unfold apply_bugeye_effect.
  rewrite (for_each_head_fault _ _ _ _ IndexError); [done|].
  unfold bugeye_body.
  rewrite (eye_gate_pass _ _ _ _ _ _ Hl Hr (conj H1 H2)), bind_Ok.
  rewrite (for_each_head_fault _ _ _ _ IndexError); [done|].
  unfold distort.
  destruct (bbox p) as [|a [|b [|d [|e rest]]]]; simpl in Hb; try lia; done.
Qed.

Lemma bugeye_short_bbox_witness :
  apply_bugeye_effect ref.cv2 sample.scene
    [Pose [0; 0; 3] [Keypoint 0 1 1; Keypoint 1 1 1]] 0 1 (1 # 2)
    = Fault IndexError.
Proof.
  apply (bugeye_short_bbox ref.cv2 sample.scene
           (Pose [0; 0; 3] [Keypoint 0 1 1; Keypoint 1 1 1]) [] 0 1 (1 # 2)
           (Keypoint 0 1 1) (Keypoint 1 1 1));
    [reflexivity | reflexivity | discriminate | discriminate | simpl; lia].
Defined.

(** X6. On detections whose keypoint indices are in range the overlays
    return: the sunglasses and the hat always, the firecracker when its
    asset has at least one row. *)
Theorem overlays_return (c : cv.CV2) (img : image) (pose_results : list pose)
    (l r : Z) (thr : Q) :
  Forall (λ p,
    let K := Z.of_nat (length (keypoints p)) in
    (- K <= l < K)%Z ∧ (- K <= r < K)%Z) pose_results →
  (∀ asset, ∃ img',
     apply_sunglasses_effect c img pose_results asset l r thr = Ok img') ∧
  (∀ asset, ∃ img',
     apply_hat_effect c img pose_results asset l r thr = Ok img') ∧
  (∀ asset, (np.shape asset).1 ≠ 0%nat → ∃ img',
     apply_firecracker_effect c img pose_results asset l r thr = Ok img').
Proof.
  intros H. split; [|split].
  - intros asset. unfold apply_sunglasses_effect. destruct (np.shape asset).
    apply for_each_total. eapply Forall_impl; [exact H|].
    intros p [Hl Hr] im. unfold sunglasses_body, sunglasses_patch.
    destruct (eye_gate_total _ _ _ thr Hl Hr) as [[[kl kr]|] ->]; by eexists.
  - intros asset. unfold apply_hat_effect. destruct (np.shape asset).
    apply for_each_total. eapply Forall_impl; [exact H|].
    intros p [Hl Hr] im. unfold hat_body, hat_patch.
    destruct (eye_gate_total _ _ _ thr Hl Hr) as [[[kl kr]|] ->]; by eexists.
  - intros asset. unfold apply_firecracker_effect.
    destruct (np.shape asset) as [hm wm], (np.shape img) as [h w].
    cbn [fst]. intros Hm. rewrite (firecracker_size_Ok _ _ _ Hm), bind_Ok.
    apply for_each_total. eapply Forall_impl; [exact H|].
    intros p [Hl Hr] im. unfold firecracker_body.
    destruct (firecracker_patch_total c asset (anchors_src 0 1 hm wm)
                (Qnat h / 3 / Qnat hm * Qnat wm) (Qnat h / 3) l thr
                (keypoints p) (np.shape im) Hl) as [pm ->].
    rewrite bind_Ok.
    destruct (firecracker_patch_total c asset (anchors_src 0 1 hm wm)
                (Qnat h / 3 / Qnat hm * Qnat wm) (Qnat h / 3) r thr
                (keypoints p) (np.shape (composite pm im)) Hr) as [pm' ->].
    by eexists.
Qed.

Lemma overlays_return_witness :
  ∃ img', apply_sunglasses_effect ref.cv2 sample.scene
            [sample.person 1; sample.person 0] sample.asset (-1) (-2) (1 # 2)
          = Ok img'.
Proof.
  refine (proj1 (overlays_return ref.cv2 sample.scene
            [sample.person 1; sample.person 0] (-1) (-2) (1 # 2) _)
            sample.asset).
  repeat constructor; simpl; lia.
Defined.

(** ** The shape of the distortion *)

(** The factor by which the kernel scales the offset from the anchor. *)
Lemma contraction_factor (k s D v : Q) :
  0 < s → 0 < D → 0 < k →
  v / (1 + k / (D / s)) == D / (D + k * s) * v.
Proof. intros Hs HD Hk. field. repeat split; nra. Qed.

Lemma factor_bounds (k s D : Q) :
  0 < s → 0 < D → 0 < k → 0 < D / (D + k * s) ∧ D / (D + k * s) < 1.
Proof.
  intros Hs HD Hk. assert (0 < D + k * s) by nra. split.
  - apply Qlt_shift_div_l; [done|]. lra.
  - apply Qlt_shift_div_r; [done|]. nra.
Qed.

Lemma distort_at_value scale xc yc x y :
  0 < scale →
  distort_at k1 epe scale xc yc x y =
    Ok ((x - xc) / (1 + k1 / (((x - xc) ^ 2 + (y - yc) ^ 2 + epe) / scale)) + xc,
        (y - yc) / (1 + k1 / (((x - xc) ^ 2 + (y - yc) ^ 2 + epe) / scale)) + yc).
Proof. intros Hs. by rewrite distort_at_spec. Qed.

Lemma radius_pos (x y xc yc : Q) : 0 < (x - xc) ^ 2 + (y - yc) ^ 2 + epe.
Proof.
  pose proof (sq_nonneg (x - xc)). pose proof (sq_nonneg (y - yc)).
  assert (0 < epe) by reflexivity. lra.
Qed.

(** X7. Around an anchor the kernel is a radial contraction: the offset of a
    grid point from the anchor is multiplied, on both axes, by the one factor
    [t = (d2 + epe) / (d2 + epe + k1 * scale)], which lies strictly between 0
    and 1; [d2] is the squared distance of the point from the anchor. *)
Theorem distort_radial_contraction (scale xc yc x y : Q) :
  0 < scale →
  let d2 := (x - xc) ^ 2 + (y - yc) ^ 2 in
  let t := (d2 + epe) / (d2 + epe + k1 * scale) in
  0 < t ∧ t < 1 ∧
  ∃ x' y', distort_at k1 epe scale xc yc x y = Ok (x', y') ∧
           x' - xc == t * (x - xc) ∧ y' - yc == t * (y - yc).
Proof.
  intros Hs d2 t.
  pose proof (radius_pos x y xc yc) as HD. fold d2 in HD.
  assert (Hk : 0 < k1) by reflexivity.
  destruct (factor_bounds k1 scale (d2 + epe) Hs HD Hk) as [Ht0 Ht1].
  split; [done|]. split; [done|].
  eexists _, _. split; [by apply distort_at_value|]. fold d2.
  split.
  - rewrite (contraction_factor k1 scale (d2 + epe) (x - xc) Hs HD Hk).
    fold t. ring.
  - rewrite (contraction_factor k1 scale (d2 + epe) (y - yc) Hs HD Hk).
    fold t. ring.
Qed.

Lemma distort_radial_contraction_witness :
  let t := ((4 - 1) ^ 2 + (5 - 1) ^ 2 + epe)
           / ((4 - 1) ^ 2 + (5 - 1) ^ 2 + epe + k1 * 25) in
  0 < t ∧ t < 1 ∧
  ∃ x' y', distort_at k1 epe 25 1 1 4 5 = Ok (x', y') ∧
           x' - 1 == t * (4 - 1) ∧ y' - 1 == t * (5 - 1).
Proof.
  apply (distort_radial_contraction 25 1 1 4 5). reflexivity.
Defined.

(** X8. The kernel moves no grid point by more than [sqrt (k1 * scale) / 2],
    that is 1.6 per cent of the bounding-box diagonal. *)
Theorem distort_displacement_bound (scale xc yc x y x' y' : Q) :
  0 < scale →
  distort_at k1 epe scale xc yc x y = Ok (x', y') →
  (x' - x) ^ 2 + (y' - y) ^ 2 <= k1 * scale / 4.
Proof.
  intros Hs. rewrite (distort_at_value _ _ _ _ _ Hs). intros [= <- <-].
  set (d2 := (x - xc) * (x - xc) + (y - yc) * (y - yc)).
  assert (Hd : 0 <= d2).
  { pose proof (sq_nonneg (x - xc) : 0 <= (x - xc) * (x - xc)).
    pose proof (sq_nonneg (y - yc) : 0 <= (y - yc) * (y - yc)).
    unfold d2. lra. }
  assert (He : 0 < epe) by reflexivity.
  assert (HD : 0 < d2 + epe) by lra.
  assert (Hk : 0 < k1) by reflexivity.
  rewrite (contraction_factor k1 scale (d2 + epe) (x - xc) Hs HD Hk).
  rewrite (contraction_factor k1 scale (d2 + epe) (y - yc) Hs HD Hk).
  set (A := k1 * scale). assert (HA : 0 < A) by (unfold A; nra).
  assert (E : ((d2 + epe) / (d2 + epe + A) * (x - xc) + xc - x) ^ 2
              + ((d2 + epe) / (d2 + epe + A) * (y - yc) + yc - y) ^ 2
              == A * A * d2 / ((d2 + epe + A) * (d2 + epe + A))).
  { unfold d2. field. fold d2. lra. }
  rewrite E. clear E. clearbody A d2.
  pose proof (sq_nonneg (d2 - A) : 0 <= (d2 - A) * (d2 - A)) as Hsq.
  assert (HB : 0 < (d2 + epe + A) * (d2 + epe + A)) by nra.
  apply Qle_shift_div_r; [done|].
  assert (H4 : 4 * (A * d2) <= (d2 + epe + A) * (d2 + epe + A)) by nra.
  assert (Hr : A / 4 * ((d2 + epe + A) * (d2 + epe + A))
               == A * ((d2 + epe + A) * (d2 + epe + A)) / 4) by field.
  rewrite Hr. apply Qle_shift_div_l; [reflexivity|].
  assert (Hl : A * A * d2 * 4 == A * (4 * (A * d2))) by ring.
  rewrite Hl. apply Qmult_le_l; done.
Qed.

Lemma distort_displacement_bound_witness :
  ∃ x' y', distort_at k1 epe 25 1 1 4 5 = Ok (x', y') ∧
           (x' - 4) ^ 2 + (y' - 5) ^ 2 <= k1 * 25 / 4.
Proof.
  eexists _, _. split; [reflexivity|].
  apply (distort_displacement_bound 25 1 1 4 5); reflexivity.
Defined.

(** The contraction factor grows with the distance from the anchor. *)
Lemma factor_increasing (A e d d0 t t0 : Q) :
  0 < A → 0 < e → 0 <= d → d < d0 →
  t * (d + e + A) == d + e → t0 * (d0 + e + A) == d0 + e →
  0 < t ∧ t < t0.
Proof.
  intros HA He Hd Hlt Ht Ht0.
  assert (H1 : t == (d + e) / (d + e + A)) by (field_simplify_eq; lra).
  assert (H2 : t0 == (d0 + e) / (d0 + e + A)) by (field_simplify_eq; lra).
  rewrite H1, H2. split.
  - apply Qlt_shift_div_l; lra.
  - apply Qlt_shift_div_l; [lra|].
    assert (E : (d + e) / (d + e + A) * (d0 + e + A)
                == (d + e) * (d0 + e + A) / (d + e + A)) by (field; lra).
    rewrite E. apply Qlt_shift_div_r; [lra|]. nra.
Qed.

Lemma scaled_norm_increasing (d d0 t t0 : Q) :
  0 <= d → d < d0 → 0 < t → t < t0 → t * t * d < t0 * t0 * d0.
Proof.
  intros Hd Hlt Ht Htt.
  assert (t * t < t0 * t0) by nra.
  assert (t * t * d <= t0 * t0 * d) by nra.
  assert (t0 * t0 * d < t0 * t0 * d0) by nra.
  lra.
Qed.

Lemma contraction_injective (A e u v u0 v0 : Q) :
  0 < A → 0 < e →
  let d := u * u + v * v in
  let d0 := u0 * u0 + v0 * v0 in
  (d + e) / (d + e + A) * u == (d0 + e) / (d0 + e + A) * u0 →
  (d + e) / (d + e + A) * v == (d0 + e) / (d0 + e + A) * v0 →
  u == u0 ∧ v == v0.
Proof.
  intros HA He d d0.
  assert (Hd : 0 <= d).
  { pose proof (sq_nonneg u : 0 <= u * u).
    pose proof (sq_nonneg v : 0 <= v * v). unfold d. lra. }
  assert (Hd0 : 0 <= d0).
  { pose proof (sq_nonneg u0 : 0 <= u0 * u0).
    pose proof (sq_nonneg v0 : 0 <= v0 * v0). unfold d0. lra. }
  set (t := (d + e) / (d + e + A)). set (t0 := (d0 + e) / (d0 + e + A)).
  assert (Ht : t * (d + e + A) == d + e) by (unfold t; field; lra).
  assert (Ht0 : t0 * (d0 + e + A) == d0 + e) by (unfold t0; field; lra).
  intros H1 H2.
  assert (S : t * t * d == t0 * t0 * d0).
  { assert (t * t * d == (t * u) * (t * u) + (t * v) * (t * v)) as ->
      by (unfold d; ring).
    rewrite H1, H2. unfold d0. ring. }
  assert (Hdd : d == d0).
  { destruct (Q_dec d d0) as [[Hlt|Hgt]|Heq]; [| |done].
    - destruct (factor_increasing A e d d0 t t0 HA He Hd Hlt Ht Ht0) as [P1 P2].
      pose proof (scaled_norm_increasing d d0 t t0 Hd Hlt P1 P2). lra.
    - destruct (factor_increasing A e d0 d t0 t HA He Hd0 Hgt Ht0 Ht) as [P1 P2].
      pose proof (scaled_norm_increasing d0 d t0 t Hd0 Hgt P1 P2). lra. }
  assert (Htt : t == t0).
  { unfold t, t0. by rewrite Hdd. }
  assert (Hpos : 0 < t).
  { unfold t. apply Qlt_shift_div_l; lra. }
  rewrite <- Htt in H1, H2. clearbody t t0 d d0.
  split.
  - apply (Qmult_inj_l u u0 t); [lra|done].
  - apply (Qmult_inj_l v v0 t); [lra|done].
Qed.

(** X9. One application of the kernel is one-to-one: two grid points that it
    sends to the same place are the same point, so the field never folds the
    image over itself. *)
Theorem distort_injective (scale xc yc x y x0 y0 : Q) (p p0 : Q * Q) :
  0 < scale →
  distort_at k1 epe scale xc yc x y = Ok p →
  distort_at k1 epe scale xc yc x0 y0 = Ok p0 →
  veq p p0 → x == x0 ∧ y == y0.
Proof.
  intros Hs E E0 [H1 H2].
  rewrite (distort_at_value _ _ _ x y Hs) in E.
  rewrite (distort_at_value _ _ _ x0 y0 Hs) in E0.
  assert (Ep : p = ((x - xc) / (1 + k1 / (((x - xc) ^ 2 + (y - yc) ^ 2 + epe)
                                          / scale)) + xc,
                    (y - yc) / (1 + k1 / (((x - xc) ^ 2 + (y - yc) ^ 2 + epe)
                                          / scale)) + yc)) by congruence.
  assert (Ep0 : p0 = ((x0 - xc) / (1 + k1 / (((x0 - xc) ^ 2 + (y0 - yc) ^ 2
                                              + epe) / scale)) + xc,
                      (y0 - yc) / (1 + k1 / (((x0 - xc) ^ 2 + (y0 - yc) ^ 2
                                              + epe) / scale)) + yc))
    by congruence.
  subst p p0. cbn [fst snd] in H1, H2. clear E E0.
  assert (Hk : 0 < k1) by reflexivity. assert (He : 0 < epe) by reflexivity.
  pose proof (radius_pos x y xc yc) as HD.
  pose proof (radius_pos x0 y0 xc yc) as HD0.
  rewrite (contraction_factor k1 scale _ (x - xc) Hs HD Hk) in H1.
  rewrite (contraction_factor k1 scale _ (x0 - xc) Hs HD0 Hk) in H1.
  rewrite (contraction_factor k1 scale _ (y - yc) Hs HD Hk) in H2.
  rewrite (contraction_factor k1 scale _ (y0 - yc) Hs HD0 Hk) in H2.
  assert (HA : 0 < k1 * scale) by nra.
  destruct (contraction_injective (k1 * scale) epe
              (x - xc) (y - yc) (x0 - xc) (y0 - yc) HA He) as [Hu Hv].
  - cbv zeta. change ((x - xc) * (x - xc)) with ((x - xc) ^ 2).
    change ((y - yc) * (y - yc)) with ((y - yc) ^ 2).
    change ((x0 - xc) * (x0 - xc)) with ((x0 - xc) ^ 2).
    change ((y0 - yc) * (y0 - yc)) with ((y0 - yc) ^ 2). lra.
  - cbv zeta. change ((x - xc) * (x - xc)) with ((x - xc) ^ 2).
    change ((y - yc) * (y - yc)) with ((y - yc) ^ 2).
    change ((x0 - xc) * (x0 - xc)) with ((x0 - xc) ^ 2).
    change ((y0 - yc) * (y0 - yc)) with ((y0 - yc) ^ 2). lra.
  - split; lra.
Qed.

Lemma distort_injective_witness :
  ∃ p, distort_at k1 epe 25 1 1 4 5 = Ok p ∧
       ∀ x0 y0 p0, distort_at k1 epe 25 1 1 x0 y0 = Ok p0 → veq p p0 →
                   4 == x0 ∧ 5 == y0.
Proof.
  eexists. split; [reflexivity|]. intros x0 y0 p0 E0 Hv.
  refine (distort_injective 25 1 1 4 5 x0 y0 _ p0 _ _ E0 Hv); reflexivity.
Defined.

(** ** The field of the first detection *)

Lemma rect_shape {A} (a : array2 A) h w :
  rect h w a → h ≠ 0%nat → np.shape a = (h, w).
Proof.
  unfold rect. intros H Hh. rewrite shape_sizes, H, length_replicate.
  by destruct h.
Qed.

(** The grids start as the identity: [xx[i][j] = j] and [yy[i][j] = i]. *)
Lemma at2_meshgrid h w i j :
  (i < h)%nat → (j < w)%nat →
  at2 (np.meshgrid (np.arange w) (np.arange h)).1 i j = Some (Qnat j) ∧
  at2 (np.meshgrid (np.arange w) (np.arange h)).2 i j = Some (Qnat i).
Proof.
  intros Hi Hj. unfold at2, np.meshgrid, np.arange. simpl.
  rewrite !length_fmap, !length_seq. split.
  - rewrite lookup_replicate_2 by done. simpl.
    by rewrite list_lookup_fmap, lookup_seq_lt.
  - rewrite !list_lookup_fmap, lookup_seq_lt by done. simpl.
    by rewrite lookup_replicate_2.
Qed.

(** X10. Called on one eligible detection, the bug-eye effect resamples the
    scene once, through grids of the scene's size whose entry at row [i] and
    column [j] is the pixel's own position [(j, i)] sent through the kernel
    around the left eye and then around the right eye. *)
Theorem bugeye_single_detection (c : cv.CV2) (img : image) (p : pose)
    (l r : Z) (thr : Q) (kl kr : keypoint) (h w : nat)
    (x1 y1 x2 y2 : Q) (rest : list Q) :
  rect h w img →
  np.index (keypoints p) l = Ok kl → np.index (keypoints p) r = Ok kr →
  thr <= score kl → thr <= score kr →
  bbox p = x1 :: y1 :: x2 :: y2 :: rest →
  let scale := (x2 - x1) ^ 2 + (y2 - y1) ^ 2 in
  0 < scale →
  ∃ xx yy,
    apply_bugeye_effect c img [p] l r thr = Ok (cv.remap c img xx yy) ∧
    rect h w xx ∧ rect h w yy ∧
    ∀ i j, (i < h)%nat → (j < w)%nat →
      ∃ xa ya x' y',
        distort_at k1 epe scale (kx kl) (ky kl) (Qnat j) (Qnat i)
          = Ok (xa, ya) ∧
        distort_at k1 epe scale (kx kr) (ky kr) xa ya = Ok (x', y') ∧
        at2 xx i j = Some x' ∧ at2 yy i j = Some y'.
Proof.
  intros Hi Hl Hr H1 H2 Hb scale Hs.
  unfold apply_bugeye_effect. rewrite for_each_one. unfold bugeye_body.
  rewrite (eye_gate_pass _ _ _ _ _ _ Hl Hr (conj H1 H2)), bind_Ok.
  cbn [fst snd].
  set (g0 := np.meshgrid (np.arange (np.shape img).2)
               (np.arange (np.shape img).1)).
  assert (Hg0 : sizes g0.1 = replicate h w ∧ sizes g0.2 = replicate h w).
  { pose proof (meshgrid_sizes (np.shape img).1 (np.shape img).2) as [E1 E2].
    rewrite (shape_replicate img h w Hi) in E1, E2. done. }
  destruct Hg0 as [Hx0 Hy0].
  rewrite for_each_two.
  rewrite (distort_spec _ _ _ _ _ _ _ _ Hb Hs), bind_Ok.
  rewrite (distort_spec _ _ _ _ _ _ _ _ Hb Hs), !bind_Ok.
  cbn [fst snd]. eexists _, _. split; [reflexivity|].
  unfold rect.
  split; [rewrite !sizes_map2; rewrite ?sizes_map2; congruence|].
  split; [rewrite !sizes_map2; rewrite ?sizes_map2; congruence|].
  intros i j Hih Hjw.
  assert (Hshape : np.shape img = (h, w)) by (apply rect_shape; [done|lia]).
  assert (Ex : at2 g0.1 i j = Some (Qnat j) ∧ at2 g0.2 i j = Some (Qnat i)).
  { unfold g0. rewrite Hshape. by apply at2_meshgrid. }
  destruct Ex as [Ex Ey].
  set (pa := Spec.remap_update scale (np.xy kl) (Qnat j, Qnat i)).
  set (pb := Spec.remap_update scale (np.xy kr) (pa.1, pa.2)).
  exists pa.1, pa.2, pb.1, pb.2.
  split; [by rewrite distort_at_spec|]. split; [by rewrite distort_at_spec|].
  split.
  - rewrite (at2_map2 _ _ _ i j pa.1 pa.2); [done| |];
      by rewrite (at2_map2 _ _ _ i j (Qnat j) (Qnat i)).
  - rewrite (at2_map2 _ _ _ i j pa.1 pa.2); [done| |];
      by rewrite (at2_map2 _ _ _ i j (Qnat j) (Qnat i)).
Qed.

Lemma bugeye_single_detection_witness :
  ∃ xx yy,
    apply_bugeye_effect ref.cv2 sample.scene [sample.person 1] 0 1 (1 # 2)
      = Ok (cv.remap ref.cv2 sample.scene xx yy) ∧
    rect 3 2 xx ∧ rect 3 2 yy ∧
    ∀ i j, (i < 3)%nat → (j < 2)%nat →
      ∃ xa ya x' y',
        distort_at k1 epe ((3 - 0) ^ 2 + (4 - 0) ^ 2) 0 1 (Qnat j) (Qnat i)
          = Ok (xa, ya) ∧
        distort_at k1 epe ((3 - 0) ^ 2 + (4 - 0) ^ 2) 1 1 xa ya = Ok (x', y') ∧
        at2 xx i j = Some x' ∧ at2 yy i j = Some y'.
Proof.
  apply (bugeye_single_detection ref.cv2 sample.scene (sample.person 1)
           0 1 (1 # 2) (Keypoint 0 1 (9 # 10)) (Keypoint 1 1 1) 3 2
           0 0 3 4 []);
    [reflexivity | reflexivity | reflexivity | discriminate | discriminate
    | reflexivity | reflexivity].
Defined.

(** ** Calls in sequence *)

(** X11. For the three overlays a call on a list of detections is a call on
    its first part followed by a call on the rest, on the image the first
    call returned. The firecracker recomputes its target height from the
    image it is given, which has kept its size. *)
Theorem overlays_compose (c : cv.CV2) (img : image) (ps1 ps2 : list pose)
    (l r : Z) (thr : Q) (h w : nat) :
  cv_sizes c → rect h w img →
  (∀ asset,
     apply_sunglasses_effect c img (ps1 ++ ps2) asset l r thr =
       img' ← apply_sunglasses_effect c img ps1 asset l r thr;
       apply_sunglasses_effect c img' ps2 asset l r thr) ∧
  (∀ asset,
     apply_hat_effect c img (ps1 ++ ps2) asset l r thr =
       img' ← apply_hat_effect c img ps1 asset l r thr;
       apply_hat_effect c img' ps2 asset l r thr) ∧
  (∀ asset,
     apply_firecracker_effect c img (ps1 ++ ps2) asset l r thr =
       img' ← apply_firecracker_effect c img ps1 asset l r thr;
       apply_firecracker_effect c img' ps2 asset l r thr).
Proof.
  intros Hc Hi. split; [|split]; intros asset.
  - apply sunglasses_fold.
  - apply hat_fold.
  - by apply (firecracker_fold c img ps1 ps2 asset l r thr h w).
Qed.

Lemma overlays_compose_witness :
  apply_firecracker_effect ref.cv2 sample.scene
    ([sample.person 1] ++ [sample.person (3 # 10)]) sample.asset 0 1 (1 # 2) =
    img' ← apply_firecracker_effect ref.cv2 sample.scene [sample.person 1]
              sample.asset 0 1 (1 # 2);
    apply_firecracker_effect ref.cv2 img' [sample.person (3 # 10)]
      sample.asset 0 1 (1 # 2).
Proof.
  exact (proj2 (proj2 (overlays_compose ref.cv2 sample.scene
    [sample.person 1] [sample.person (3 # 10)] 0 1 (1 # 2) 3 2
    ref_sizes eq_refl)) sample.asset).
Defined.

(** ** The bounding box *)

Lemma for_each_Forall2 {S X} (body : S → X → outcome S) xs ys :
  Forall2 (λ x y, ∀ s, body s x = body s y) xs ys →
  ∀ s, for_each body xs s = for_each body ys s.
Proof.
  induction 1 as [|x y xs ys Hxy _ IH]; intros s; [done|].
  simpl. rewrite Hxy. destruct (body s y); [apply IH | done].
Qed.

Lemma distort_take k e (b : list Q) g a :
  (4 <= length b)%nat → distort k e b g a = distort k e (take 4 b) g a.
Proof.
  destruct b as [|x1 [|y1 [|x2 [|y2 rest]]]]; simpl; try lia. intros _.
  unfold distort.
  rewrite !(index_lookup _ 2 x2), !bind_Ok by done.
  rewrite !(index_lookup _ 0 x1), !bind_Ok by done.
  rewrite !(index_lookup _ 3 y2), !bind_Ok by done.
  by rewrite !(index_lookup _ 1 y1), !bind_Ok by done.
Qed.

Lemma for_each_ext {S X} (body body' : S → X → outcome S) xs :
  (∀ s x, body s x = body' s x) →
  ∀ s, for_each body xs s = for_each body' xs s.
Proof.
  intros H. induction xs as [|x xs IH]; intros s; [done|].
  simpl. rewrite H. destruct (body' s x); [apply IH | done].
Qed.

(** X12. The bug-eye effect reads the first four entries of a bounding box
    only: detections that differ in later entries (the detection score of a
    five-entry box) give the same image. *)
Theorem bugeye_reads_four_bbox_entries (c : cv.CV2) (img : image)
    (ps ps' : list pose) (l r : Z) (thr : Q) :
  Forall2 (λ p p', keypoints p = keypoints p' ∧
             (4 <= length (bbox p))%nat ∧ (4 <= length (bbox p'))%nat ∧
             take 4 (bbox p) = take 4 (bbox p')) ps ps' →
  apply_bugeye_effect c img ps l r thr = apply_bugeye_effect c img ps' l r thr.
Proof.
  intros H. unfold apply_bugeye_effect.
  rewrite (for_each_Forall2 _ ps ps'); [done|].
  eapply Forall2_impl; [exact H|].
  intros p p' (Hk & H4 & H4' & Ht) st. unfold bugeye_body. rewrite Hk.
  destruct (eye_gate (keypoints p') l r thr) as [[[kl kr]|]|]; try done.
  rewrite !bind_Ok.
  rewrite (for_each_ext (distort k1 epe (bbox p))
             (distort k1 epe (take 4 (bbox p))))
    by (intros; by apply distort_take).
  rewrite (for_each_ext (distort k1 epe (bbox p'))
             (distort k1 epe (take 4 (bbox p'))))
    by (intros; by apply distort_take).
  by rewrite Ht.
Qed.

Lemma bugeye_reads_four_bbox_entries_witness :
  apply_bugeye_effect ref.cv2 sample.scene
    [Pose [0; 0; 3; 4] [Keypoint 0 1 1; Keypoint 1 1 1]] 0 1 (1 # 2)
  = apply_bugeye_effect ref.cv2 sample.scene
    [Pose [0; 0; 3; 4; 99 # 100] [Keypoint 0 1 1; Keypoint 1 1 1]] 0 1 (1 # 2).
Proof.
  apply (bugeye_reads_four_bbox_entries ref.cv2 sample.scene
    [Pose [0; 0; 3; 4] [Keypoint 0 1 1; Keypoint 1 1 1]]
    [Pose [0; 0; 3; 4; 99 # 100] [Keypoint 0 1 1; Keypoint 1 1 1]]
    0 1 (1 # 2)).
  repeat constructor; simpl; lia.
Defined.

(** ** The correspondences handed to [cv2.findHomography] *)

Lemma sum_sq_zero (a b : Q) : a * a + b * b == 0 ↔ a == 0 ∧ b == 0.
Proof.
  split.
  - intros H. split; nra.
  - intros [-> ->]. ring.
Qed.

Lemma not_veq_sq (u v : vec2) :
  ¬ veq u v ↔
  ¬ (v.1 - u.1) * (v.1 - u.1) + (v.2 - u.2) * (v.2 - u.2) == 0.
Proof.
  unfold veq. rewrite sum_sq_zero. split; intros H [H1 H2]; apply H; split; lra.
Qed.

Lemma Qnat_pos n : n ≠ 0%nat → 0 < Qnat n.
Proof. intros H. unfold Qnat, Qlt. simpl. lia. Qed.

Lemma Qnat_zero n : Qnat n == 0 ↔ n = 0%nat.
Proof. unfold Qnat, Qeq. simpl. lia. Qed.

Lemma scaled_nonzero (k a : Q) : ¬ k == 0 → (¬ k * a == 0 ↔ ¬ a == 0).
Proof.
  intros Hk. split; intros H E; apply H.
  - rewrite E. ring.
  - apply Qmult_integral in E as [E|E]; [contradiction|done].
Qed.

Lemma sunglasses_tar_orient (le re : vec2) :
  let n := (re.1 - le.1) * (re.1 - le.1) + (re.2 - le.2) * (re.2 - le.2) in
  match sunglasses_tar le re with
  | [q1; q2; q3; q4] =>
      orient q1 q2 q3 == - n ∧ orient q4 q2 q3 == n ∧
      orient q1 q4 q3 == - n ∧ orient q1 q2 q4 == - n
  | _ => False
  end.
Proof.
  destruct le as [lx ly], re as [rx ry].
  unfold sunglasses_tar, orient, np.add, np.sub, np.mul, np.smul, np.rev.
  simpl. repeat split; field.
Qed.

Lemma hat_tar_orient (le re : vec2) :
  let n := (re.1 - le.1) * (re.1 - le.1) + (re.2 - le.2) * (re.2 - le.2) in
  match hat_tar le re with
  | [q1; q2; q3; q4] =>
      orient q1 q2 q3 == - (4 * n) ∧ orient q4 q2 q3 == 4 * n ∧
      orient q1 q4 q3 == - (4 * n) ∧ orient q1 q2 q4 == - (4 * n)
  | _ => False
  end.
Proof.
  destruct le as [lx ly], re as [rx ry].
  unfold hat_tar, orient, np.add, np.sub, np.mul, np.smul, np.rev.
  simpl. repeat split; field.
Qed.

Lemma anchors_src_orient (a b : Q) (hm wm : nat) :
  let n := (b - a) * (b - a) * (Qnat hm * Qnat wm) in
  match anchors_src a b hm wm with
  | [p1; p2; p3; p4] =>
      orient p1 p2 p3 == - n ∧ orient p4 p2 p3 == n ∧
      orient p1 p4 p3 == - n ∧ orient p1 p2 p4 == - n
  | _ => False
  end.
Proof. unfold anchors_src, orient. simpl. repeat split; ring. Qed.

Lemma firecracker_tar_orient (wt ht : Q) (k : vec2) :
  ∃ q1 q2 q3 q4, firecracker_tar wt ht k = Ok [q1; q2; q3; q4] ∧
    orient q1 q2 q3 == - (wt * ht) ∧ orient q4 q2 q3 == wt * ht ∧
    orient q1 q4 q3 == - (wt * ht) ∧ orient q1 q2 q4 == - (wt * ht).
Proof.
  unfold firecracker_tar. rewrite py_div_ok, bind_Ok by discriminate.
  eexists _, _, _, _. split; [reflexivity|].
  destruct k as [x y]. unfold orient, np.add, np.sub. simpl.
  repeat split; field.
Qed.

Lemma general_position_signed (q1 q2 q3 q4 : vec2) (n : Q) :
  orient q1 q2 q3 == - n → orient q4 q2 q3 == n →
  orient q1 q4 q3 == - n → orient q1 q2 q4 == - n →
  general_position [q1; q2; q3; q4] ↔ ¬ n == 0.
Proof.
  intros E1 E2 E3 E4. unfold general_position. rewrite E1, E2, E3, E4.
  split; [intros (_ & H & _); done|].
  intros H. repeat split; try done; intros E; apply H; lra.
Qed.

Lemma Qnat_product_nonzero (k : Q) (hm wm : nat) :
  ¬ k == 0 → (¬ k * (Qnat hm * Qnat wm) == 0 ↔ hm ≠ 0%nat ∧ wm ≠ 0%nat).
Proof.
  intros Hk. rewrite (scaled_nonzero k _ Hk). rewrite <- !Qnat_zero. split.
  - intros H. split; intros E; apply H; rewrite E; ring.
  - intros [H1 H2] E. apply Qmult_integral in E as [E|E]; contradiction.
Qed.

(** X13. The four point pairs handed to [cv2.findHomography] have no three
    points on a line exactly when the asset has rows and columns and, for
    the sunglasses and the hat, the two eyes are at different positions, for
    the firecracker, the target rectangle has a width and a height. With
    both eyes at one position the four targets collapse. *)
Theorem correspondences_non_degenerate :
  (∀ le re, general_position (sunglasses_tar le re) ↔ ¬ veq le re) ∧
  (∀ le re, general_position (hat_tar le re) ↔ ¬ veq le re) ∧
  (∀ hm wm, general_position (anchors_src (3 # 10) (7 # 10) hm wm)
            ↔ hm ≠ 0%nat ∧ wm ≠ 0%nat) ∧
  (∀ hm wm, general_position (anchors_src 0 1 hm wm)
            ↔ hm ≠ 0%nat ∧ wm ≠ 0%nat) ∧
  (∀ wt ht k, ∃ tar, firecracker_tar wt ht k = Ok tar ∧
     (general_position tar ↔ ¬ wt == 0 ∧ ¬ ht == 0)).
Proof.
  split; [|split; [|split; [|split]]].
  - intros le re. pose proof (sunglasses_tar_orient le re) as H. cbv zeta in H.
    destruct (sunglasses_tar le re) as [|q1 [|q2 [|q3 [|q4 [|]]]]]; try done.
    destruct H as (E1 & E2 & E3 & E4).
    rewrite (general_position_signed _ _ _ _ _ E1 E2 E3 E4).
    symmetry. apply not_veq_sq.
  - intros le re. pose proof (hat_tar_orient le re) as H. cbv zeta in H.
    destruct (hat_tar le re) as [|q1 [|q2 [|q3 [|q4 [|]]]]]; try done.
    destruct H as (E1 & E2 & E3 & E4).
    rewrite (general_position_signed _ _ _ _ _ E1 E2 E3 E4).
    rewrite scaled_nonzero by discriminate. symmetry. apply not_veq_sq.
  - intros hm wm.
    pose proof (anchors_src_orient (3 # 10) (7 # 10) hm wm) as H.
    cbv zeta in H.
    destruct (anchors_src _ _ hm wm) as [|q1 [|q2 [|q3 [|q4 [|]]]]]; try done.
    destruct H as (E1 & E2 & E3 & E4).
    rewrite (general_position_signed _ _ _ _ _ E1 E2 E3 E4).
    by apply Qnat_product_nonzero.
  - intros hm wm. pose proof (anchors_src_orient 0 1 hm wm) as H.
    cbv zeta in H.
    destruct (anchors_src _ _ hm wm) as [|q1 [|q2 [|q3 [|q4 [|]]]]]; try done.
    destruct H as (E1 & E2 & E3 & E4).
    rewrite (general_position_signed _ _ _ _ _ E1 E2 E3 E4).
    by apply Qnat_product_nonzero.
  - intros wt ht k.
    destruct (firecracker_tar_orient wt ht k)
      as (q1 & q2 & q3 & q4 & -> & E1 & E2 & E3 & E4).
    eexists. split; [reflexivity|].
    rewrite (general_position_signed _ _ _ _ _ E1 E2 E3 E4). split.
    + intros H. split; intros E; apply H; rewrite E; ring.
    + intros [H1 H2] E. apply Qmult_integral in E as [E|E]; contradiction.
Qed.

(** X14. The overlays are never mirrored: wherever the correspondence is not
    degenerate the source anchors and the targets turn the same way, for
    every position of the eyes or wrist. *)
Theorem overlays_keep_orientation :
  (∀ a b hm wm, a < b → hm ≠ 0%nat → wm ≠ 0%nat →
     orientation (anchors_src a b hm wm) < 0) ∧
  (∀ le re, ¬ veq le re →
     orientation (sunglasses_tar le re) < 0 ∧
     orientation (hat_tar le re) < 0) ∧
  (∀ wt ht k, 0 < wt → 0 < ht →
     ∃ tar, firecracker_tar wt ht k = Ok tar ∧ orientation tar < 0).
Proof.
  split; [|split].
  - intros a b hm wm Hab Hm%Qnat_pos Hw%Qnat_pos.
    pose proof (anchors_src_orient a b hm wm) as H. cbv zeta in H.
    destruct (anchors_src _ _ hm wm) as [|q1 [|q2 [|q3 [|q4 [|]]]]]; try done.
    destruct H as (E1 & _). simpl. rewrite E1.
    assert (0 < (b - a) * (b - a)) by nra.
    assert (0 < Qnat hm * Qnat wm) by nra. nra.
  - intros le re Hne. apply not_veq_sq in Hne.
    pose proof (sq_nonneg (re.1 - le.1) : 0 <= (re.1 - le.1) * (re.1 - le.1)).
    pose proof (sq_nonneg (re.2 - le.2) : 0 <= (re.2 - le.2) * (re.2 - le.2)).
    split.
    + pose proof (sunglasses_tar_orient le re) as Ho. cbv zeta in Ho.
      destruct (sunglasses_tar le re) as [|q1 [|q2 [|q3 [|q4 [|]]]]];
        try done.
      destruct Ho as (E1 & _). simpl. rewrite E1. lra.
    + pose proof (hat_tar_orient le re) as Ho. cbv zeta in Ho.
      destruct (hat_tar le re) as [|q1 [|q2 [|q3 [|q4 [|]]]]]; try done.
      destruct Ho as (E1 & _). simpl. rewrite E1. lra.
  - intros wt ht k Hw Hh.
    destruct (firecracker_tar_orient wt ht k)
      as (q1 & q2 & q3 & q4 & -> & E1 & _).
    eexists. split; [reflexivity|]. simpl. rewrite E1. nra.
Qed.

(** X15. The firecracker is drawn at one scale on both axes, [h / (3 hm)]:
    every corner [(u, v)] of the asset is sent to
    [(x - w_tar / 2 + s u, y + s v)] for a wrist at [(x, y)], so that the
    middle of the asset's top edge lies on the wrist. *)
Theorem firecracker_uniform_scale (hm wm h : nat) (k : vec2) :
  hm ≠ 0%nat →
  let s := Qnat h / (3 * Qnat hm) in
  ∃ w_tar h_tar tar,
    firecracker_size hm wm h = Ok (w_tar, h_tar) ∧
    firecracker_tar w_tar h_tar k = Ok tar ∧
    w_tar == s * Qnat wm ∧ h_tar == s * Qnat hm ∧
    Forall2 (λ p q, veq q (k.1 - w_tar / 2 + s * p.1, k.2 + s * p.2))
      (anchors_src 0 1 hm wm) tar.
Proof.
  intros Hm s. pose proof (Qnat_nonzero hm Hm) as Hq.
  eexists _, _, _. split; [by apply firecracker_size_Ok|].
  unfold firecracker_tar. rewrite py_div_ok, bind_Ok by discriminate.
  split; [reflexivity|]. unfold s.
  split; [field; done|]. split; [field; done|].
  destruct k as [x y]. unfold anchors_src, veq, np.add, np.sub.
  repeat constructor; simpl; field; done.
Qed.

Lemma firecracker_uniform_scale_witness :
  ∃ w_tar h_tar tar,
    firecracker_size 2 2 3 = Ok (w_tar, h_tar) ∧
    firecracker_tar w_tar h_tar (1, 1) = Ok tar ∧
    w_tar == Qnat 3 / (3 * Qnat 2) * Qnat 2 ∧
    h_tar == Qnat 3 / (3 * Qnat 2) * Qnat 2 ∧
    Forall2 (λ p q, veq q ((1, 1).1 - w_tar / 2 + Qnat 3 / (3 * Qnat 2) * p.1,
                           (1, 1).2 + Qnat 3 / (3 * Qnat 2) * p.2))
      (anchors_src 0 1 2 2) tar.
Proof.
  apply (firecracker_uniform_scale 2 2 3 (1, 1)). discriminate.
Defined.

(** ** The buffers of the bug-eye effect *)







(** ** What an exception leaves in the caller's image *)

Lemma for_each_raising_spec {S X} (body : S → X → outcome S) xs s :
  for_each body xs s =
    match store.for_each_raising body xs s with
    | (s', None) => Ok s'
    | (_, Some f) => Fault f
    end.
Proof.
  revert s. induction xs as [|x xs IH]; intros s; [done|].
  simpl. destruct (body s x) as [s1|f]; [|done]. rewrite bind_Ok. apply IH.
Qed.

Lemma for_each_raising_app {S X} (body : S → X → outcome S) xs ys s s1 :
  for_each body xs s = Ok s1 →
  store.for_each_raising body (xs ++ ys) s = store.for_each_raising body ys s1.
Proof.
  revert s. induction xs as [|x xs IH]; intros s; simpl.
  - by intros [= ->].
  - destruct (body s x) as [s2|]; [|done]. rewrite bind_Ok. apply IH.
Qed.

Lemma for_each_raising_prefix {S X} (body : S → X → outcome S) xs s :
  ∃ xs1 xs2, xs = xs1 ++ xs2 ∧
    for_each body xs1 s = Ok (store.for_each_raising body xs s).1.
Proof.
  revert s. induction xs as [|x xs IH]; intros s.
  { by exists [], []. }
  simpl. destruct (body s x) as [s1|f] eqn:E.
  - destruct (IH s1) as (xs1 & xs2 & -> & H).
    exists (x :: xs1), xs2. split; [done|]. simpl. by rewrite E, bind_Ok.
  - by exists [], (x :: xs).
Qed.

(** X17. An exception does not undo what the sunglasses effect has drawn: when
    a detection raises IndexError, the caller's image holds the overlays of
    the detections before it. The hat effect, which draws on a copy, leaves
    the caller's image as it was however the call ends. *)
Theorem exceptions_and_the_caller_image (c : cv.CV2)
    (σ : gmap positive image) (img : positive) (im : image) (h w : nat)
    (l r : Z) (thr : Q) :
  cv_sizes c → rect h w im → σ !! img = Some im →
  (∀ asset ps1 p ps2 im1,
     apply_sunglasses_effect c im ps1 asset l r thr = Ok im1 →
     (l < - Z.of_nat (length (keypoints p)) ∨
      Z.of_nat (length (keypoints p)) <= l)%Z →
     store.apply_sunglasses_effect_raising c img (ps1 ++ p :: ps2) asset
       l r thr σ = ((img, <[img := im1]> σ), Some IndexError)) ∧
  (∀ asset ps,
     (store.apply_hat_effect_raising c img ps asset l r thr σ).1.2 !! img
       = Some im).
Proof.
  intros Hc Hi Hl. split.
  - intros asset ps1 p ps2 im1 H1 Hp.
    pose proof (sunglasses_in_place c Hc h w im Hi σ img Hl asset l r thr ps1)
      as Hbuf.
    rewrite H1, bind_Ok in Hbuf. revert Hbuf.
    unfold store.apply_sunglasses_effect_buf,
      store.apply_sunglasses_effect_raising.
    destruct (np.shape asset) as [hm wm]. intros Hbuf.
    rewrite (for_each_raising_app _ _ _ _ _ Hbuf). simpl.
    unfold store.sunglasses_body_buf at 1, sunglasses_patch.
    by rewrite (eye_gate_left_fault _ _ _ _ IndexError)
      by by apply index_out_of_range.
  - intros asset ps.
    pose proof (λ ps1, hat_on_copy c Hc h w im Hi σ img Hl asset l r thr ps1)
      as Hbuf.
    cbv zeta in Hbuf. revert Hbuf.
    unfold store.apply_hat_effect_buf, store.apply_hat_effect_raising.
    destruct (store.copy img σ) as [l1' σ1].
    destruct (store.copy l1' σ1) as [l2' σ2].
    destruct (np.shape asset) as [hm wm]. intros Hbuf.
    set (l1 := fresh (dom σ)) in *.
    set (l2 := fresh (dom (<[l1 := im]> σ))) in *.
    destruct (for_each_raising_prefix
                (store.hat_body_buf c asset (anchors_src (3 # 10) (7 # 10) hm wm)
                   l r thr) ps (l2', σ2)) as (xs1 & xs2 & _ & Hpre).
    rewrite Hbuf in Hpre.
    destruct (apply_hat_effect c im xs1 asset l r thr) as [im'|]; [|done].
    rewrite bind_Ok in Hpre. injection Hpre as <-. simpl.
    assert (H1 : σ !! l1 = None) by (apply not_elem_of_dom, is_fresh).
    assert (H2 : (<[l1 := im]> σ) !! l2 = None)
      by (apply not_elem_of_dom, is_fresh).
    assert (l1 ≠ img) by (intros E; rewrite E in H1; congruence).
    assert (l2 ≠ img).
    { intros E. rewrite E, lookup_insert_ne in H2 by done. congruence. }
    by rewrite !lookup_insert_ne.
Qed.

Lemma exceptions_and_the_caller_image_witness :
  store.apply_sunglasses_effect_raising ref.cv2 1%positive
    ([sample.person 1] ++ Pose [] [] :: []) sample.asset 0 1 (1 # 2)
    {[1%positive := sample.scene]}
  = ((1%positive,
      <[1%positive := [[cv.white; cv.white];
                       [sample.grey 50; sample.grey 50];
                       [sample.grey 50; sample.grey 50]]]>
        {[1%positive := sample.scene]}), Some IndexError).
Proof.
  refine (proj1 (exceptions_and_the_caller_image ref.cv2
    {[1%positive := sample.scene]} 1%positive sample.scene 3 2 0 1 (1 # 2)
    ref_sizes eq_refl _) sample.asset [sample.person 1] (Pose [] []) [] _ _ _).
  - apply lookup_singleton_eq.
  - vm_compute. reflexivity.
  - right. simpl. lia.
Defined.

(** ** Where the pixels of an overlaid image come from *)

Lemma for_each_invariant_elem {S X} (body : S → X → outcome S)
    (P : S → Prop) xs :
  (∀ s x s', x ∈ xs → P s → body s x = Ok s' → P s') →
  ∀ s s', P s → for_each body xs s = Ok s' → P s'.
Proof.
  induction xs as [|x xs IH]; intros Hbody s s' Hs; simpl.
  - by intros [= <-].
  - destruct (body s x) as [s1|] eqn:E; [|done]. rewrite bind_Ok.
    apply IH.
    + intros s0 y s0' Hy. apply Hbody. by right.
    + eapply Hbody; [by left|exact Hs|exact E].
Qed.

Lemma composite_pixel pm (img : image) h w i j s :
  rect h w img →
  (∀ patch mask, pm = Some (patch, mask) → rect h w patch ∧ rect h w mask) →
  at2 img i j = Some s →
  ∃ s', at2 (composite pm img) i j = Some s' ∧
    (s' = s ∨ ∃ patch mask, pm = Some (patch, mask) ∧ at2 patch i j = Some s').
Proof.
  intros Hi Hpm Hs. destruct pm as [[patch mask]|]; [|by exists s; auto].
  destruct (Hpm _ _ eq_refl) as [Hp Hm]. unfold rect in *. simpl.
  rewrite (proj1 (copyTo_sizes patch mask img _ Hp Hm Hi)).
  destruct (at2_sizes img patch i j s ltac:(congruence) Hs) as [px Hpx].
  destruct (at2_sizes img mask i j s ltac:(congruence) Hs) as [m Hmk].
  rewrite (masked_copy_at _ _ _ _ _ _ _ _ Hpx Hmk Hs).
  destruct (m =? 0)%Z; eexists; (split; [reflexivity|]); eauto.
Qed.

(** A loop that composites, at every turn, the patch of one item. *)
Lemma overlay_loop_provenance {X}
    (patch_of : nat * nat → X → outcome (option (image * array2 Z)))
    (h w : nat) (img : image) (xs : list X) (img' : image) :
  rect h w img →
  (∀ x patch mask, patch_of (np.shape img) x = Ok (Some (patch, mask)) →
     rect h w patch ∧ rect h w mask) →
  for_each (λ im x, pm ← patch_of (np.shape im) x; Ok (composite pm im))
    xs img = Ok img' →
  rect h w img' ∧
  ∀ i j s, at2 img i j = Some s →
    ∃ s', at2 img' i j = Some s' ∧
      (s' = s ∨
       ∃ x pm, x ∈ xs ∧ patch_of (np.shape img) x = Ok (Some pm) ∧
               at2 pm.1 i j = Some s').
Proof.
  intros Hi Hpatch.
  apply (for_each_invariant_elem _ (λ im : image,
    rect h w im ∧
    ∀ i j s, at2 img i j = Some s →
      ∃ s', at2 im i j = Some s' ∧
        (s' = s ∨
         ∃ x pm, x ∈ xs ∧ patch_of (np.shape img) x = Ok (Some pm) ∧
                 at2 pm.1 i j = Some s'))).
  - intros im x im' Hx [Him Hinv] (pm & Hpm & [= <-])%bind_inv.
    rewrite (rect_shape_eq im img h w Him Hi) in Hpm.
    assert (Hsz : ∀ patch mask, pm = Some (patch, mask) →
                    rect h w patch ∧ rect h w mask).
    { intros patch mask ->. by eapply Hpatch. }
    split; [by apply composite_sizes|].
    intros i j s Hs. destruct (Hinv i j s Hs) as (s1 & Hs1 & Hor).
    destruct (composite_pixel pm im h w i j s1 Him Hsz Hs1)
      as (s2 & Hs2 & [->|(patch & mask & -> & Hp)]).
    + by exists s1.
    + exists s2. split; [done|]. right. by exists x, (patch, mask).
  - split; [done|]. intros i j s Hs. exists s. auto.
Qed.

Lemma firecracker_body_unfold c asset src wt ht l r thr img p :
  firecracker_body c asset src wt ht l r thr img p =
    pm ← firecracker_patch c asset src wt ht l thr (keypoints p)
           (np.shape img);
    pm' ← firecracker_patch c asset src wt ht r thr (keypoints p)
            (np.shape (composite pm img));
    Ok (composite pm' (composite pm img)).
Proof. reflexivity. Qed.

(** The two blocks of the firecracker body as two turns of a loop. *)
Lemma firecracker_two_turns c asset src wt ht l r thr ps img :
  for_each (firecracker_body c asset src wt ht l r thr) ps img =
  for_each (λ im (x : pose * Z),
              pm ← firecracker_patch c asset src wt ht x.2 thr
                     (keypoints x.1) (np.shape im);
              Ok (composite pm im))
    (ps ≫= λ p, [(p, l); (p, r)]) img.
Proof.
  revert img. induction ps as [|p ps IH]; intros img; [done|].
  cbn [for_each mbind list_bind app]. rewrite firecracker_body_unfold.
  cbn [fst snd].
  destruct (firecracker_patch c asset src wt ht l thr (keypoints p)
              (np.shape img)) as [pm|]; [|done].
  rewrite !bind_Ok.
  destruct (firecracker_patch c asset src wt ht r thr (keypoints p)
              (np.shape (composite pm img))) as [pm'|]; [|done].
  rewrite !bind_Ok. apply IH.
Qed.

(** X18. An overlay blends nothing: every pixel of the image a successful
    call returns is the pixel the scene had at that position, or the pixel
    at that position of the patch warped for one of the detections. *)
Theorem overlay_pixel_provenance (c : cv.CV2) (img : image)
    (pose_results : list pose) (l r : Z) (thr : Q) (h w : nat) :
  cv_sizes c → rect h w img →
  (∀ asset img',
     apply_sunglasses_effect c img pose_results asset l r thr = Ok img' →
     ∀ i j s, at2 img i j = Some s →
       ∃ s', at2 img' i j = Some s' ∧
         (s' = s ∨
          ∃ p pm, p ∈ pose_results ∧
            sunglasses_patch c asset
              (anchors_src (3 # 10) (7 # 10)
                 (np.shape asset).1 (np.shape asset).2)
              l r thr (np.shape img) p = Ok (Some pm) ∧
            at2 pm.1 i j = Some s')) ∧
  (∀ asset img',
     apply_hat_effect c img pose_results asset l r thr = Ok img' →
     ∀ i j s, at2 img i j = Some s →
       ∃ s', at2 img' i j = Some s' ∧
         (s' = s ∨
          ∃ p pm, p ∈ pose_results ∧
            hat_patch c asset
              (anchors_src (3 # 10) (7 # 10)
                 (np.shape asset).1 (np.shape asset).2)
              l r thr (np.shape img) p = Ok (Some pm) ∧
            at2 pm.1 i j = Some s')) ∧
  (∀ asset img',
     apply_firecracker_effect c img pose_results asset l r thr = Ok img' →
     ∀ i j s, at2 img i j = Some s →
       ∃ s', at2 img' i j = Some s' ∧
         (s' = s ∨
          ∃ p idx w_tar h_tar pm, p ∈ pose_results ∧ (idx = l ∨ idx = r) ∧
            firecracker_size (np.shape asset).1 (np.shape asset).2
              (np.shape img).1 = Ok (w_tar, h_tar) ∧
            firecracker_patch c asset
              (anchors_src 0 1 (np.shape asset).1 (np.shape asset).2)
              w_tar h_tar idx thr (keypoints p) (np.shape img)
              = Ok (Some pm) ∧
            at2 pm.1 i j = Some s')).
Proof.
  intros Hc Hi. split; [|split].
  - intros asset img'. unfold apply_sunglasses_effect.
    destruct (np.shape asset) as [hm wm]. cbn [fst snd]. intros H.
    apply (overlay_loop_provenance
             (λ shp p, sunglasses_patch c asset
                         (anchors_src (3 # 10) (7 # 10) hm wm) l r thr shp p)
             h w img pose_results img' Hi); [|exact H].
    intros p patch mask. by apply sunglasses_patch_frame.
  - intros asset img'. unfold apply_hat_effect.
    destruct (np.shape asset) as [hm wm]. cbn [fst snd]. intros H.
    apply (overlay_loop_provenance
             (λ shp p, hat_patch c asset
                         (anchors_src (3 # 10) (7 # 10) hm wm) l r thr shp p)
             h w img pose_results img' Hi); [|exact H].
    intros p patch mask. by apply hat_patch_frame.
  - intros asset img'. unfold apply_firecracker_effect.
    destruct (np.shape asset) as [hm wm], (np.shape img) as [hi wi] eqn:Es.
    cbn [fst snd].
    destruct (firecracker_size hm wm hi) as [[wt ht]|]; [|done].
    rewrite bind_Ok, firecracker_two_turns. intros H i j s Hs.
    destruct (proj2 (overlay_loop_provenance
             (λ shp (x : pose * Z),
                firecracker_patch c asset (anchors_src 0 1 hm wm) wt ht
                  x.2 thr (keypoints x.1) shp)
             h w img _ img' Hi
             ltac:(intros x patch mask; by apply firecracker_patch_frame)
             H) i j s Hs)
      as (s' & Hs' & [->|(x & pm & Hx & Hpm & Hat)]).
    + exists s. auto.
    + exists s'. split; [done|]. right.
      apply list_elem_of_bind in Hx as (p & Hx & Hp).
      exists p, x.2, wt, ht, pm. split; [done|].
      rewrite Es in Hpm.
      apply elem_of_cons in Hx as [->|Hx];
        [|apply list_elem_of_singleton in Hx as ->]; simpl; auto.
Qed.

Lemma overlay_pixel_provenance_witness :
  ∃ s', at2 [[cv.white; cv.white];
             [sample.grey 50; sample.grey 50];
             [sample.grey 50; sample.grey 50]] 1 0 = Some s' ∧
    (s' = cv.white ∨
     ∃ p pm, p ∈ [sample.person 1] ∧
       sunglasses_patch ref.cv2 sample.asset
         (anchors_src (3 # 10) (7 # 10)
            (np.shape sample.asset).1 (np.shape sample.asset).2)
         0 1 (1 # 2) (np.shape sample.scene) p = Ok (Some pm) ∧
       at2 pm.1 1 0 = Some s').
Proof.
  refine (proj1 (overlay_pixel_provenance ref.cv2 sample.scene
    [sample.person 1] 0 1 (1 # 2) 3 2 ref_sizes eq_refl) sample.asset _ _
    1%nat 0%nat cv.white eq_refl).
  vm_compute. reflexivity.
Defined.

(** ** A detection listed twice, eyes given the other way round *)

Lemma zip_with_idem {A B} (f : A → B → B) (l : list A) (k : list B) :
  (∀ a b, f a (f a b) = f a b) →
  zip_with f l (zip_with f l k) = zip_with f l k.
Proof.
  intros Hf. revert k. induction l as [|a l IH]; intros [|b k]; try done.
  simpl. by rewrite Hf, IH.
Qed.

Lemma masked_copy_idem {P} (src : array2 P) mask dst :
  cv.masked_copy src mask (cv.masked_copy src mask dst)
  = cv.masked_copy src mask dst.
Proof.
  unfold cv.masked_copy, np.map2. apply zip_with_idem.
  intros r s. apply zip_with_idem. intros [p m] d. simpl.
  by destruct (m =? 0)%Z.
Qed.

Lemma composite_idem pm (img : image) h w :
  rect h w img →
  (∀ patch mask, pm = Some (patch, mask) → rect h w patch ∧ rect h w mask) →
  composite pm (composite pm img) = composite pm img.
Proof.
  intros Hi Hpm. destruct pm as [[patch mask]|]; [|done].
  destruct (Hpm _ _ eq_refl) as [Hp Hm]. unfold rect in *. simpl.
  destruct (copyTo_sizes patch mask img _ Hp Hm Hi) as [E1 Hs].
  destruct (copyTo_sizes patch mask _ _ Hp Hm Hs) as [E2 _].
  rewrite E2, E1. apply masked_copy_idem.
Qed.

Lemma overlay_loop_repeat {X}
    (patch_of : nat * nat → X → outcome (option (image * array2 Z)))
    (h w : nat) (img : image) (xs1 xs2 : list X) (x : X) :
  rect h w img →
  (∀ (im : image) y patch mask, rect h w im →
     patch_of (np.shape im) y = Ok (Some (patch, mask)) →
     rect h w patch ∧ rect h w mask) →
  let body := λ (im : image) y,
    pm ← patch_of (np.shape im) y; Ok (composite pm im) in
  for_each body (xs1 ++ x :: x :: xs2) img = for_each body (xs1 ++ x :: xs2) img.
Proof.
  intros Hi Hpatch body. rewrite !for_each_app.
  destruct (for_each body xs1 img) as [im1|] eqn:E1; [|done].
  rewrite !bind_Ok.
  assert (Hstep : ∀ im y im', rect h w im → body im y = Ok im' → rect h w im').
  { intros im y im' Him (pm & Hpm & [= <-])%bind_inv.
    apply composite_sizes; [|done]. intros patch mask ->.
    by apply (Hpatch im y). }
  pose proof (for_each_invariant body (rect h w) xs1 Hstep img im1 Hi E1) as H1.
  cbn [for_each].
  destruct (body im1 x) as [im2|] eqn:E2; [|done]. rewrite !bind_Ok.
  assert (E3 : body im2 x = Ok im2).
  { pose proof (Hstep _ _ _ H1 E2) as H2. revert E2. unfold body.
    intros (pm & Hpm & [= <-])%bind_inv.
    rewrite (rect_shape_eq (composite pm im1) im1 h w H2 H1), Hpm, bind_Ok.
    f_equal. apply (composite_idem pm im1 h w H1).
    intros patch mask ->. by apply (Hpatch im1 x). }
  by rewrite E3, bind_Ok.
Qed.

(** X19. For the sunglasses and the hat a detection listed twice in a row is
    drawn once: the second masked copy writes the pixels the first one
    wrote. *)
Theorem repeated_detection_drawn_once (c : cv.CV2) (img : image)
    (ps1 ps2 : list pose) (p : pose) (l r : Z) (thr : Q) (h w : nat) :
  cv_sizes c → rect h w img →
  (∀ asset,
     apply_sunglasses_effect c img (ps1 ++ p :: p :: ps2) asset l r thr =
     apply_sunglasses_effect c img (ps1 ++ p :: ps2) asset l r thr) ∧
  (∀ asset,
     apply_hat_effect c img (ps1 ++ p :: p :: ps2) asset l r thr =
     apply_hat_effect c img (ps1 ++ p :: ps2) asset l r thr).
Proof.
  intros Hc Hi. split; intros asset.
  - unfold apply_sunglasses_effect. destruct (np.shape asset) as [hm wm].
    apply (overlay_loop_repeat
             (λ shp q, sunglasses_patch c asset
                         (anchors_src (3 # 10) (7 # 10) hm wm) l r thr shp q)
             h w img ps1 ps2 p Hi).
    intros im q patch mask Him. by apply sunglasses_patch_frame.
  - unfold apply_hat_effect. destruct (np.shape asset) as [hm wm].
    apply (overlay_loop_repeat
             (λ shp q, hat_patch c asset
                         (anchors_src (3 # 10) (7 # 10) hm wm) l r thr shp q)
             h w img ps1 ps2 p Hi).
    intros im q patch mask Him. by apply hat_patch_frame.
Qed.

Lemma repeated_detection_drawn_once_witness :
  apply_sunglasses_effect ref.cv2 sample.scene
    ([] ++ sample.person 1 :: sample.person 1 :: []) sample.asset 0 1 (1 # 2) =
  apply_sunglasses_effect ref.cv2 sample.scene
    ([] ++ sample.person 1 :: []) sample.asset 0 1 (1 # 2).
Proof.
  exact (proj1 (repeated_detection_drawn_once ref.cv2 sample.scene [] []
    (sample.person 1) 0 1 (1 # 2) 3 2 ref_sizes eq_refl) sample.asset).
Defined.

(** X20. Giving the two eyes the other way round turns the overlay by half a
    turn about the point midway between the eyes: every target of the
    sunglasses and of the hat is reflected through that point. *)
Theorem swapped_eyes_turn_the_overlay (le re : vec2) :
  Forall2 (λ q q', veq q' (le.1 + re.1 - q.1, le.2 + re.2 - q.2))
    (sunglasses_tar le re) (sunglasses_tar re le) ∧
  Forall2 (λ q q', veq q' (le.1 + re.1 - q.1, le.2 + re.2 - q.2))
    (hat_tar le re) (hat_tar re le).
Proof.
  destruct le as [lx ly], re as [rx ry].
  unfold sunglasses_tar, hat_tar, veq, np.add, np.sub, np.mul, np.smul, np.rev.
  split; repeat constructor; simpl; ring.
Qed.

(** ** The order of detections *)

Lemma array2_eq {A} (a b : array2 A) :
  sizes a = sizes b → (∀ i j, at2 a i j = at2 b i j) → a = b.
Proof.
  unfold sizes, at2. intros Hs H. apply list_eq. intros i.
  assert (Hi : (length <$> a) !! i = (length <$> b) !! i) by by rewrite Hs.
  rewrite !list_lookup_fmap in Hi. specialize (H i).
  destruct (a !! i) as [ra|], (b !! i) as [rb|]; try done.
  f_equal. apply list_eq. intros j. apply (H j).
Qed.

Lemma at2_sizes_None {A B} (a : array2 A) (b : array2 B) i j :
  sizes a = sizes b → at2 a i j = None → at2 b i j = None.
Proof.
  intros Hs Ha. destruct (at2 b i j) as [y|] eqn:Hb; [|done].
  destruct (at2_sizes b a i j y (eq_sym Hs) Hb) as [x Hx]. congruence.
Qed.

Lemma masked_copy_swap {P} (p1 p2 : array2 P) m1 m2 dst s :
  sizes p1 = s → sizes m1 = s → sizes p2 = s → sizes m2 = s → sizes dst = s →
  (∀ i j a b, at2 m1 i j = Some a → at2 m2 i j = Some b →
     a = 0%Z ∨ b = 0%Z) →
  cv.masked_copy p1 m1 (cv.masked_copy p2 m2 dst)
  = cv.masked_copy p2 m2 (cv.masked_copy p1 m1 dst).
Proof.
  intros H1 H2 H3 H4 H5 Hd.
  pose proof (masked_copy_sizes p2 m2 dst s H3 H4 H5) as H6.
  pose proof (masked_copy_sizes p1 m1 dst s H1 H2 H5) as H7.
  apply array2_eq.
  { rewrite !(masked_copy_sizes _ _ _ s); done. }
  intros i j. destruct (at2 dst i j) as [d|] eqn:Ed.
  - destruct (at2_sizes dst p1 i j d ltac:(congruence) Ed) as [x1 E1].
    destruct (at2_sizes dst m1 i j d ltac:(congruence) Ed) as [a Ea].
    destruct (at2_sizes dst p2 i j d ltac:(congruence) Ed) as [x2 E2].
    destruct (at2_sizes dst m2 i j d ltac:(congruence) Ed) as [b Eb].
    rewrite (masked_copy_at p1 m1 _ i j x1 a (if (b =? 0)%Z then d else x2));
      [|done|done|by apply masked_copy_at].
    rewrite (masked_copy_at p2 m2 _ i j x2 b (if (a =? 0)%Z then d else x1));
      [|done|done|by apply masked_copy_at].
    destruct (Hd i j a b Ea Eb) as [-> | ->]; simpl; by destruct (_ =? 0)%Z.
  - rewrite (at2_sizes_None dst (cv.masked_copy p1 m1 _) i j);
      [|rewrite (masked_copy_sizes _ _ _ s); done|done].
    rewrite (at2_sizes_None dst (cv.masked_copy p2 m2 _) i j);
      [done|rewrite (masked_copy_sizes _ _ _ s); done|done].
Qed.

Lemma composite_swap pm pm' (img : image) h w :
  rect h w img →
  (∀ patch mask, pm = Some (patch, mask) → rect h w patch ∧ rect h w mask) →
  (∀ patch mask, pm' = Some (patch, mask) → rect h w patch ∧ rect h w mask) →
  (∀ a b i j x y, pm = Some a → pm' = Some b →
     at2 a.2 i j = Some x → at2 b.2 i j = Some y → x = 0%Z ∨ y = 0%Z) →
  composite pm (composite pm' img) = composite pm' (composite pm img).
Proof.
  intros Hi Hpm Hpm' Hd.
  destruct pm as [[p1 m1]|]; [|done]. destruct pm' as [[p2 m2]|]; [|done].
  destruct (Hpm _ _ eq_refl) as [A1 A2]. destruct (Hpm' _ _ eq_refl) as [B1 B2].
  unfold rect in *. simpl.
  destruct (copyTo_sizes p2 m2 img _ B1 B2 Hi) as [E2 S2].
  destruct (copyTo_sizes p1 m1 img _ A1 A2 Hi) as [E1 S1].
  destruct (copyTo_sizes p1 m1 _ _ A1 A2 S2) as [E3 _].
  destruct (copyTo_sizes p2 m2 _ _ B1 B2 S1) as [E4 _].
  rewrite E3, E4, E1, E2.
  apply (masked_copy_swap p1 p2 m1 m2 img (replicate h w)); try done.
  intros i j a b. by apply (Hd (p1, m1) (p2, m2) i j a b).
Qed.

Lemma eye_gate_fault kpts l r thr f :
  eye_gate kpts l r thr = Fault f → f = IndexError.
Proof.
  assert (Hidx : ∀ i f', np.index kpts i = Fault f' → f' = IndexError).
  { intros i f'. unfold np.index.
    destruct (_ && _); [destruct (kpts !! _)|]; congruence. }
  unfold eye_gate. destruct (np.index kpts l) as [kl|f1] eqn:El.
  - rewrite bind_Ok. destruct (Qltb (score kl) thr); [done|].
    destruct (np.index kpts r) as [kr|f2] eqn:Er.
    + rewrite bind_Ok. by destruct (Qltb (score kr) thr).
    + intros [= <-]. by eapply Hidx.
  - intros [= <-]. by eapply Hidx.
Qed.

Lemma overlay_loop_swap {X}
    (patch_of : nat * nat → X → outcome (option (image * array2 Z)))
    (h w : nat) (img : image) (xs1 xs2 : list X) (x y : X) :
  rect h w img →
  (∀ z patch mask, patch_of (np.shape img) z = Ok (Some (patch, mask)) →
     rect h w patch ∧ rect h w mask) →
  (∀ z f, patch_of (np.shape img) z = Fault f → f = IndexError) →
  (∀ a b i j u v,
     patch_of (np.shape img) x = Ok (Some a) →
     patch_of (np.shape img) y = Ok (Some b) →
     at2 a.2 i j = Some u → at2 b.2 i j = Some v → u = 0%Z ∨ v = 0%Z) →
  let body := λ (im : image) z,
    pm ← patch_of (np.shape im) z; Ok (composite pm im) in
  for_each body (xs1 ++ x :: y :: xs2) img
  = for_each body (xs1 ++ y :: x :: xs2) img.
Proof.
  intros Hi Hpatch Hfault Hd body. rewrite !for_each_app.
  destruct (for_each body xs1 img) as [im1|] eqn:E1; [|done].
  rewrite !bind_Ok.
  assert (Hstep : ∀ im z im', rect h w im → body im z = Ok im' → rect h w im').
  { intros im z im' Him (pm & Hpm & [= <-])%bind_inv.
    apply composite_sizes; [|done]. intros patch mask ->.
    apply (Hpatch z). by rewrite <- (rect_shape_eq im img h w Him Hi). }
  pose proof (for_each_invariant body (rect h w) xs1 Hstep img im1 Hi E1) as H1.
  assert (Hb : ∀ im z, rect h w im →
            body im z = (pm ← patch_of (np.shape img) z; Ok (composite pm im))).
  { intros im z Him. unfold body. by rewrite (rect_shape_eq im img h w Him Hi). }
  cbn [for_each]. rewrite !(Hb im1) by done.
  destruct (patch_of (np.shape img) x) as [pm|f] eqn:Ex,
           (patch_of (np.shape img) y) as [pm'|f'] eqn:Ey; rewrite ?bind_Ok.
  - assert (Hs : ∀ patch mask, pm = Some (patch, mask) →
                   rect h w patch ∧ rect h w mask)
      by (intros patch mask ->; by apply (Hpatch x)).
    assert (Hs' : ∀ patch mask, pm' = Some (patch, mask) →
                    rect h w patch ∧ rect h w mask)
      by (intros patch mask ->; by apply (Hpatch y)).
    rewrite !Hb by by apply composite_sizes.
    rewrite Ex, Ey, !bind_Ok.
    rewrite (composite_swap pm' pm im1 h w H1 Hs' Hs); [done|].
    intros a b i j u v -> -> Hu Hv.
    destruct (Hd b a i j v u eq_refl eq_refl Hv Hu); auto.
  - rewrite Hb by (apply composite_sizes; [|done];
                   intros patch mask ->; by apply (Hpatch x)).
    by rewrite Ey.
  - rewrite Hb by (apply composite_sizes; [|done];
                   intros patch mask ->; by apply (Hpatch y)).
    by rewrite Ex.
  - by rewrite (Hfault _ _ Ex), (Hfault _ _ Ey).
Qed.

(** X21. Two neighbouring detections whose masks have no pixel in common may
    change places: the order in which the sunglasses or the hats are drawn
    matters only where the overlays overlap. *)
Theorem disjoint_overlays_commute (c : cv.CV2) (img : image)
    (ps1 ps2 : list pose) (p q : pose) (l r : Z) (thr : Q) (h w : nat) :
  cv_sizes c → rect h w img →
  (∀ asset,
     let src := anchors_src (3 # 10) (7 # 10)
                  (np.shape asset).1 (np.shape asset).2 in
     (∀ a b i j u v,
        sunglasses_patch c asset src l r thr (np.shape img) p = Ok (Some a) →
        sunglasses_patch c asset src l r thr (np.shape img) q = Ok (Some b) →
        at2 a.2 i j = Some u → at2 b.2 i j = Some v → u = 0%Z ∨ v = 0%Z) →
     apply_sunglasses_effect c img (ps1 ++ p :: q :: ps2) asset l r thr =
     apply_sunglasses_effect c img (ps1 ++ q :: p :: ps2) asset l r thr) ∧
  (∀ asset,
     let src := anchors_src (3 # 10) (7 # 10)
                  (np.shape asset).1 (np.shape asset).2 in
     (∀ a b i j u v,
        hat_patch c asset src l r thr (np.shape img) p = Ok (Some a) →
        hat_patch c asset src l r thr (np.shape img) q = Ok (Some b) →
        at2 a.2 i j = Some u → at2 b.2 i j = Some v → u = 0%Z ∨ v = 0%Z) →
     apply_hat_effect c img (ps1 ++ p :: q :: ps2) asset l r thr =
     apply_hat_effect c img (ps1 ++ q :: p :: ps2) asset l r thr).
Proof.
  intros Hc Hi. split; intros asset src Hd.
  - unfold apply_sunglasses_effect. subst src.
    destruct (np.shape asset) as [hm wm]. cbn [fst snd] in Hd.
    apply (overlay_loop_swap
             (λ shp z, sunglasses_patch c asset
                         (anchors_src (3 # 10) (7 # 10) hm wm) l r thr shp z)
             h w img ps1 ps2 p q Hi); [| |exact Hd].
    + intros z patch mask. by apply sunglasses_patch_frame.
    + intros z f. unfold sunglasses_patch.
      destruct (eye_gate (keypoints z) l r thr) as [[[kl kr]|]|f'] eqn:Eg;
        try done.
      intros [= <-]. by eapply eye_gate_fault.
  - unfold apply_hat_effect. subst src.
    destruct (np.shape asset) as [hm wm]. cbn [fst snd] in Hd.
    apply (overlay_loop_swap
             (λ shp z, hat_patch c asset
                         (anchors_src (3 # 10) (7 # 10) hm wm) l r thr shp z)
             h w img ps1 ps2 p q Hi); [| |exact Hd].
    + intros z patch mask. by apply hat_patch_frame.
    + intros z f. unfold hat_patch.
      destruct (eye_gate (keypoints z) l r thr) as [[[kl kr]|]|f'] eqn:Eg;
        try done.
      intros [= <-]. by eapply eye_gate_fault.
Qed.

Lemma disjoint_overlays_commute_witness :
  apply_sunglasses_effect ref.cv2 sample.street
    ([] ++ sample.walker :: sample.runner :: []) sample.asset 0 1 (1 # 2) =
  apply_sunglasses_effect ref.cv2 sample.street
    ([] ++ sample.runner :: sample.walker :: []) sample.asset 0 1 (1 # 2).
Proof.
  refine (proj1 (disjoint_overlays_commute ref.cv2 sample.street [] []
    sample.walker sample.runner 0 1 (1 # 2) 2 6 ref_sizes eq_refl)
    sample.asset _).
  intros a b i j u v Ha Hb.
  vm_compute in Ha. vm_compute in Hb.
  injection Ha as <-. injection Hb as <-.
  destruct i as [|[|i]]; [| |done];
    (destruct j as [|[|[|[|[|[|j]]]]]]; [| | | | | |done]);
    intros [= <-] [= <-]; auto.
Defined.
